(** * Ledger signer adapter (main/signers/ledger/adapter.ts)

    A shallow embedding of [LedgerSignerAdapter]: the registry of known
    signers, the pending disconnections with their removal timers, and the
    store observer that propagates the derivation settings.

    JavaScript objects are shared by reference: the adapter's array
    [knownSigners], the timer callbacks created by [handleDetachedDevice]
    and the listeners of an 'add' notification all hold the same [Ledger]
    object.  The embedding therefore keeps every [Ledger] ever constructed
    in a heap (a list indexed by reference) and lets [knownSigners] and the
    timer callbacks hold references into it.  Pending [setTimeout] callbacks
    live in a timer table indexed by the handle [setTimeout] returned.

    Handlers are state transformers that also return the calls they make on
    collaborators and the notifications they emit, in order.  [reload] and
    [supportsDevice] change nothing of the adapter and are left out.  Real
    time is not modelled: a removal timer fires as an event of its own, and
    "within the grace window" reads "before the timer fired". *)

From Stdlib Require Import ZArith Lia.
From stdpp Require Import base decidable option list strings.

Local Open Scope Z_scope.
Local Open Scope nat_scope.

(** ** Array.prototype operations used by the adapter *)

Section array.
Context {A : Type}.

(** [arr.findIndex(p)]: index of the first element satisfying [p], -1 when
    there is none. *)
Definition findIndex (P : A → Prop) `{∀ x, Decision (P x)} (arr : list A) : Z :=
  match list_find P arr with
  | Some (i, _) => Z.of_nat i
  | None => (-1)%Z
  end.

(** [arr.find(p)] *)
Definition find (P : A → Prop) `{∀ x, Decision (P x)} (arr : list A) : option A :=
  snd <$> list_find P arr.

(** [arr.indexOf(x)] *)
Definition indexOf `{EqDecision A} (x : A) (arr : list A) : Z :=
  findIndex (λ y, y = x) arr.

(** [arr.includes(x)] *)
Definition includes `{EqDecision A} (x : A) (arr : list A) : bool :=
  bool_decide (x ∈ arr).

(** [arr.some(p)] *)
Definition some (P : A → Prop) `{∀ x, Decision (P x)} (arr : list A) : bool :=
  bool_decide (Exists P arr).

(** [arr.splice(start, 1)], the array that is left.  A negative [start]
    counts from the end of the array ([-1] designates the last element),
    a [start] beyond the end deletes nothing. *)
Definition splice (start : Z) (arr : list A) : list A :=
  let len := Z.of_nat (length arr) in
  let actualStart :=
    if decide (start < 0)%Z then Z.max (len + start) 0 else Z.min start len in
  delete (Z.to_nat actualStart) arr.

(** [arr.pop()]: the last element ([None] for undefined) and the array
    that is left. *)
Definition pop (arr : list A) : option A * list A :=
  (last arr, take (length arr - 1) arr).
End array.

(** ** Data *)

Module Derivation.
(** Modelled from the spec: the enum [Derivation] of ../Signer/derive is
    not part of the sources at hand.  The store holds the scheme as a
    string; the spec names the "live" scheme and adapter.ts:42 compares a
    signer's scheme with the literal 'live'. *)
Definition t := string.
Definition live : t := "live".
End Derivation.

(** The two store entries the adapter reads: [main.ledger.derivation] and
    [main.ledger.liveAccountLimit]. *)
Module Store.
Record t := Make {
  derivation : Derivation.t;
  liveAccountLimit : Z
}.
End Store.

(** [usbDevice : DeviceModel]; only its [id] is read. *)
Module DeviceModel.
Record t := Make { id : string }.
End DeviceModel.

(** An entry of [getLedgerDevices()]; [path] is optional. *)
Module Hid.
Record t := Make { path : option string }.

(** [d.path || ''] *)
Definition path_or_empty (d : t) : string := default "" (path d).
End Hid.

Module Ledger.
Record t := Make {
  id : nat;
  devicePath : string;
  model : string;
  derivation : Derivation.t;
  accountLimit : Z
}.

Definition set_derivation (d : Derivation.t) (a : Z) (l : t) : t :=
  {| id := id l; devicePath := devicePath l; model := model l;
     derivation := d; accountLimit := a |}.

(** Modelled from the spec: the class [Ledger] (./Ledger) is not part of
    the sources at hand.  [new Ledger(devicePath, model)] keeps its two
    arguments; the spec has the [id] "assigned once", "unique and never
    reused within a process lifetime", which is modelled by numbering the
    objects in construction order ([serial] is the number of [Ledger]
    objects constructed before this one).  The derivation fields are
    assigned by [updateDerivation] before anything reads them. *)
Definition new (devicePath model : string) (serial : nat) : t :=
  {| id := serial; devicePath := devicePath; model := model;
     derivation := ""; accountLimit := 0 |}.
End Ledger.

Global Instance Ledger_inhabited : Inhabited Ledger.t :=
  populate (Ledger.new "" "" 0).

(** References to [Ledger] objects and [setTimeout] handles. *)
Abbreviation ref := nat (only parsing).
Abbreviation Timeout := nat (only parsing).

(** An element of [this.disconnections]. *)
Module Disconnection.
Record t := Make { devicePath : string; timeout : Timeout }.
End Disconnection.

(** What a handler does to the outside: calls on a [Ledger], notifications
    of the adapter, calls to the base class, the error log. *)
Inductive Action :=
| CallOpen (ledger : ref)
| CallConnect (ledger : ref)
| CallDisconnect (ledger : ref)
| CallClose (ledger : ref)
| CallDeriveAddresses (ledger : ref)
| EmitAdd (ledger : ref)
| EmitRemove (id : nat)
| SuperOpen
| SuperClose
| LogError.

Global Instance Action_eq_dec : EqDecision Action.
Proof. solve_decision. Defined.

(** The adapter's fields together with the part of the environment they
    refer to. *)
Record State := MkState {
  (** heap: every [Ledger] constructed so far, indexed by reference *)
  ledgers : list Ledger.t;
  (** [this.knownSigners] *)
  knownSigners : list ref;
  (** [this.disconnections] *)
  disconnections : list Disconnection.t;
  (** timer table: [Some ledger] while the callback that captured [ledger]
      is pending, [None] once it was cleared or has run *)
  timeouts : list (option ref);
  (** [this.observer]: [None] is undefined, [Some o] the subscription
      returned by [store.observer] *)
  observer : option nat;
  (** subscriptions of the store: [true] until [remove()] is called *)
  observers : list bool;
  (** current content of the store *)
  store : Store.t
}.

Definition with_ledgers (h : list Ledger.t) (s : State) : State :=
  MkState h (knownSigners s) (disconnections s) (timeouts s) (observer s)
    (observers s) (store s).
Definition with_knownSigners (k : list ref) (s : State) : State :=
  MkState (ledgers s) k (disconnections s) (timeouts s) (observer s)
    (observers s) (store s).
Definition with_disconnections (d : list Disconnection.t) (s : State) : State :=
  MkState (ledgers s) (knownSigners s) d (timeouts s) (observer s)
    (observers s) (store s).
Definition with_timeouts (t : list (option ref)) (s : State) : State :=
  MkState (ledgers s) (knownSigners s) (disconnections s) t (observer s)
    (observers s) (store s).
Definition with_observer (o : option nat) (os : list bool) (s : State) : State :=
  MkState (ledgers s) (knownSigners s) (disconnections s) (timeouts s) o os
    (store s).
Definition with_store (st : Store.t) (s : State) : State :=
  MkState (ledgers s) (knownSigners s) (disconnections s) (timeouts s)
    (observer s) (observers s) st.

(** The object a reference designates.  References held by the adapter
    always designate a constructed object (see [wf]). *)
Definition deref (s : State) (r : ref) : Ledger.t := ledgers s !!! r.

(** [constructor()] *)
Definition constructor (st : Store.t) : State :=
  MkState [] [] [] [] None [] st.

(** ** updateDerivation (adapter.ts:15-20)

    An omitted argument is [None] and takes its default value. *)
Definition updateDerivation (ledger : ref)
    (derivation : option Derivation.t) (accountLimit : option Z)
    (s : State) : State :=
  let derivation := default (Store.derivation (store s)) derivation in
  let accountLimit := default 0%Z accountLimit in
  let liveAccountLimit :=
    if decide (accountLimit = 0%Z)
    then (if decide (derivation = Derivation.live)
          then Store.liveAccountLimit (store s) else 0%Z)
    else accountLimit in
  with_ledgers
    (<[ledger := Ledger.set_derivation derivation liveAccountLimit (deref s ledger)]>
       (ledgers s)) s.

(** ** open, close (adapter.ts:34-57) *)

(** One iteration of the [forEach] in the observer's callback (lines
    40-46). *)
Definition observe_ledger (ledgerDerivation : Derivation.t) (liveAccountLimit : Z)
    (acc : State * list Action) (ledger : ref) : State * list Action :=
  let '(s, acts) := acc in
  let l := deref s ledger in
  if decide (Ledger.derivation l ≠ ledgerDerivation ∨
             (Ledger.derivation l = "live" ∧
              Ledger.accountLimit l ≠ liveAccountLimit))
  then (updateDerivation ledger (Some ledgerDerivation) (Some liveAccountLimit) s,
        acts ++ [CallDeriveAddresses ledger])
  else (s, acts).

(** The callback handed to [store.observer] (lines 35-48). *)
Definition observerCallback (s : State) : State * list Action :=
  let ledgerDerivation := Store.derivation (store s) in
  let liveAccountLimit := Store.liveAccountLimit (store s) in
  foldl (observe_ledger ledgerDerivation liveAccountLimit) (s, []) (knownSigners s).

(** Modelled from the spec: the store (../../store) is not part of the
    sources at hand.  Per the spec's configuration source,
    [observe(callback)] returns a subscription handle, the callback runs
    synchronously on each change (see [storeChanged]), and
    [subscriptionHandle.remove()] ends the subscription. *)
Definition open (s : State) : State * list Action :=
  (with_observer (Some (length (observers s))) (observers s ++ [true]) s,
   [SuperOpen]).

Inductive Completion (A : Type) :=
| Normal (a : A)
| ThrowTypeError.
Arguments Normal {A} a.
Arguments ThrowTypeError {A}.

(** [this.observer.remove()] throws a TypeError when [this.observer] is
    undefined. *)
Definition close (s : State) : Completion (State * list Action) :=
  match observer s with
  | None => ThrowTypeError
  | Some o =>
      Normal (with_observer (Some o) (<[o := false]> (observers s)) s,
              [SuperClose])
  end.

(** ** getAttachedDevicePath, getDetachedSigner (adapter.ts:163-182)

    [devices] is what [getLedgerDevices()] returns during the call. *)
Definition getAttachedDevicePath (devices : list Hid.t)
    (knownDevicePaths : list string) : string :=
  let hid := find (λ d, includes (Hid.path_or_empty d) knownDevicePaths = false) devices in
  default "" (hid ≫= Hid.path).

Definition getDetachedSigner (usbDevice : DeviceModel.t)
    (attachedDevices : list Hid.t) (s : State) : option ref :=
  find (λ signer,
          Ledger.model (deref s signer) = DeviceModel.id usbDevice ∧
          some (λ device, Hid.path device = Some (Ledger.devicePath (deref s signer)))
               attachedDevices = false)
       (knownSigners s).

(** ** handleAttachedDevice (adapter.ts:69-128) *)

Definition knownPaths (s : State) : list string :=
  (λ d, Ledger.devicePath (deref s d)) <$> knownSigners s.

(** Lines 75-94: the path the event is resolved to, [None] when handling
    stops at the [return] of line 89. *)
Definition resolveDevicePath (devices : list Hid.t) (s : State)
    : option (string * State) :=
  let devicePath := getAttachedDevicePath devices (knownPaths s) in
  if decide (devicePath = "") then
    match pop (disconnections s) with
    | (None, _) => None
    | (Some pendingDisconnection, rest) =>
        (* clearTimeout(pendingDisconnection.timeout) *)
        let s := with_disconnections rest s in
        let s := with_timeouts
          (<[Disconnection.timeout pendingDisconnection := None]> (timeouts s)) s in
        Some (Disconnection.devicePath pendingDisconnection, s)
    end
  else Some (devicePath, s).

(** Lines 96-127, once the path is resolved.  [openOk] tells whether the
    promise of [ledger.open()] is fulfilled; when it is rejected,
    [ledger.connect()] is not reached.  All changes to the adapter happen
    before the first [await]. *)
Definition attachAtPath (usbDevice : DeviceModel.t) (devicePath : string)
    (openOk : bool) (s : State) : State * list Action :=
  let existingDeviceIndex :=
    findIndex (λ ledger, Ledger.devicePath (deref s ledger) = devicePath)
      (knownSigners s) in
  let '(ledger, s, acts) :=
    if decide (0 ≤ existingDeviceIndex)%Z then
      (knownSigners s !!! Z.to_nat existingDeviceIndex, s, [])
    else
      let ledger := length (ledgers s) in
      let obj := Ledger.new devicePath (DeviceModel.id usbDevice) (length (ledgers s)) in
      let s := with_ledgers (ledgers s ++ [obj]) s in
      (ledger, with_knownSigners (knownSigners s ++ [ledger]) s, [EmitAdd ledger]) in
  let s := updateDerivation ledger None None s in
  (s, acts ++ [CallOpen ledger] ++ (if openOk then [CallConnect ledger] else [])).

Definition handleAttachedDevice (usbDevice : DeviceModel.t)
    (devices : list Hid.t) (openOk : bool) (s : State)
    : State * list Action :=
  match resolveDevicePath devices s with
  | None => (s, [LogError])
  | Some (devicePath, s) => attachAtPath usbDevice devicePath openOk s
  end.

(** ** handleDetachedDevice (adapter.ts:130-161) *)

(** Modelled from the spec: [Ledger.close()] belongs to the class [Ledger],
    which is not part of the sources at hand.  The handle's [close] signal
    (spec, external interfaces) is raised once by each call; its listener is
    the one adapter.ts:111-113 registers, which emits
    [remove(ledger.id)]. *)
Definition Ledger_close (ledger : ref) (s : State) : list Action :=
  [CallClose ledger; EmitRemove (Ledger.id (deref s ledger))].

(** The callback of lines 150-157, with [ledger] captured. *)
Definition disconnectionTimeout (ledger : ref) (s : State) : State * list Action :=
  let index :=
    findIndex (λ d, Disconnection.devicePath d = Ledger.devicePath (deref s ledger))
      (disconnections s) in
  let s := with_disconnections (splice index (disconnections s)) s in
  let s := with_knownSigners
    (splice (indexOf ledger (knownSigners s)) (knownSigners s)) s in
  (s, Ledger_close ledger s).

Definition handleDetachedDevice (IS_WINDOWS : bool)
    (usbDevice : DeviceModel.t) (attachedDevices : list Hid.t) (s : State)
    : State * list Action :=
  match getDetachedSigner usbDevice attachedDevices s with
  | None => (s, [])
  | Some ledger =>
      if negb IS_WINDOWS then
        let timeout := length (timeouts s) in
        let s' := with_timeouts (timeouts s ++ [Some ledger]) s in
        let s' := with_disconnections
          (disconnections s ++
             [Disconnection.Make (Ledger.devicePath (deref s ledger)) timeout]) s' in
        (s', [CallDisconnect ledger])
      else (s, [CallDisconnect ledger])
  end.

(** ** Events *)

(** A pending timer fires: its callback runs once. *)
Definition fireTimeout (t : Timeout) (s : State) : State * list Action :=
  match timeouts s !! t with
  | Some (Some ledger) =>
      disconnectionTimeout ledger (with_timeouts (<[t := None]> (timeouts s)) s)
  | _ => (s, [])
  end.

(** The store changes: every live subscription runs the callback. *)
Definition notify (acc : State * list Action) (subscribed : bool)
    : State * list Action :=
  if subscribed then
    let '(s, acts) := acc in
    let '(s', acts') := observerCallback s in (s', acts ++ acts')
  else acc.

Definition storeChanged (st : Store.t) (s : State) : State * list Action :=
  let s := with_store st s in
  foldl notify (s, []) (observers s).

Inductive Event :=
| Attached (usbDevice : DeviceModel.t) (devices : list Hid.t) (openOk : bool)
| Detached (usbDevice : DeviceModel.t) (devices : list Hid.t)
| TimeoutFired (t : Timeout)
| StoreChanged (st : Store.t)
| Open
| Close.

(** One event; a [close()] that throws leaves the adapter as it was. *)
Definition step (IS_WINDOWS : bool) (e : Event) (s : State) : State * list Action :=
  match e with
  | Attached usbDevice devices openOk => handleAttachedDevice usbDevice devices openOk s
  | Detached usbDevice devices => handleDetachedDevice IS_WINDOWS usbDevice devices s
  | TimeoutFired t => fireTimeout t s
  | StoreChanged st => storeChanged st s
  | Open => open s
  | Close => match close s with Normal r => r | ThrowTypeError => (s, []) end
  end.

(** A sequence of events, with everything done along the way. *)
Definition run (IS_WINDOWS : bool) (es : list Event) (s : State)
    : State * list Action :=
  foldl (λ acc e, let '(s', acts) := step IS_WINDOWS e acc.1 in (s', acc.2 ++ acts))
    (s, []) es.

(** ** Concrete devices and settings used in the examples *)

Definition dev_A : Hid.t := Hid.Make (Some "/dev/A").
Definition dev_B : Hid.t := Hid.Make (Some "/dev/B").
Definition dev_nopath : Hid.t := Hid.Make None.
Definition nanoS : DeviceModel.t := DeviceModel.Make "nanoS".
Definition legacy_5 : Store.t := Store.Make "legacy" 5.
Definition standard_5 : Store.t := Store.Make "standard" 5.
Definition live_20 : Store.t := Store.Make "live" 20.

(** ** Well-formed states *)

(** Paths of pending disconnections. *)
Definition pendingPaths (s : State) : list string :=
  Disconnection.devicePath <$> disconnections s.

(** What every state reached from [constructor] satisfies: the registry
    holds references to constructed objects, no two of them with the same
    path, and the objects carry their construction number as [id]. *)
Record wf (s : State) : Prop := {
  wf_paths : NoDup (knownPaths s);
  wf_refs : Forall (λ r, r < length (ledgers s)) (knownSigners s);
  wf_ids : ∀ r l, ledgers s !! r = Some l → Ledger.id l = r
}.

(** The effective configuration the store asks for: the account limit
    counts under the live scheme only. *)
Definition effective (st : Store.t) : Derivation.t * Z :=
  (Store.derivation st,
   if decide (Store.derivation st = Derivation.live)
   then Store.liveAccountLimit st else 0%Z).

Definition config (l : Ledger.t) : Derivation.t * Z :=
  (Ledger.derivation l, Ledger.accountLimit l).

(** [p] is the path of the first enumerated device that no registry entry
    owns (a device without a path reads as the empty path). *)
Definition first_unowned (devices : list Hid.t) (known : list string)
    (p : string) : Prop :=
  ∃ pre d post,
    devices = pre ++ d :: post ∧
    Forall (λ d', Hid.path_or_empty d' ∈ known) pre ∧
    Hid.path_or_empty d = p ∧ p ∉ known.

(** ** Relations between states *)

(* The handlers are unfolded by hand in the proofs. *)
Arguments observe_ledger : simpl never.
Arguments observerCallback : simpl never.
Arguments updateDerivation : simpl never.
Arguments attachAtPath : simpl never.

(** [s'] differs from [s] at most in the [derivation] and [accountLimit]
    of its [Ledger] objects. *)
Record config_only (s s' : State) : Prop := {
  co_known : knownSigners s' = knownSigners s;
  co_disconnections : disconnections s' = disconnections s;
  co_timeouts : timeouts s' = timeouts s;
  co_observer : observer s' = observer s;
  co_observers : observers s' = observers s;
  co_store : store s' = store s;
  co_length : length (ledgers s') = length (ledgers s);
  co_id : ∀ r, Ledger.id (deref s' r) = Ledger.id (deref s r);
  co_devicePath : ∀ r, Ledger.devicePath (deref s' r) = Ledger.devicePath (deref s r);
  co_model : ∀ r, Ledger.model (deref s' r) = Ledger.model (deref s r)
}.

(** Every object of [s] is still there in [s'], with the same [id],
    [devicePath] and [model]. *)
Definition grows (s s' : State) : Prop :=
  ∀ r l, ledgers s !! r = Some l →
    ∃ l', ledgers s' !! r = Some l' ∧ Ledger.id l' = Ledger.id l ∧
          Ledger.devicePath l' = Ledger.devicePath l ∧
          Ledger.model l' = Ledger.model l.


(** Closed decidable facts are settled by evaluation. *)
Ltac by_evaluation := apply (bool_decide_unpack _); vm_compute; exact I.

(** ** reload, supportsDevice (adapter.ts:59-67, 184-186) *)

(** [reload(signer)]: only [signer.devicePath] is read.  [disconnectOk]
    and [openOk] tell whether the promises of [ledger.disconnect()] and
    [ledger.open()] are fulfilled; a rejected promise ends the [then]
    chain. *)
Definition reload (signer : Ledger.t) (disconnectOk openOk : bool) (s : State)
    : State * list Action :=
  match find (λ l, Ledger.devicePath (deref s l) = Ledger.devicePath signer)
          (knownSigners s) with
  | Some ledger =>
      (s, [CallDisconnect ledger] ++
          (if disconnectOk
           then [CallOpen ledger] ++ (if openOk then [CallConnect ledger] else [])
           else []))
  | None => (s, [])
  end.

(** [usbDevice : usb.Device]; only [deviceDescriptor.idVendor] is read. *)
Module Usb.
Record Device := Make { idVendor : Z }.
End Usb.

Definition supportsDevice (usbDevice : Usb.Device) : bool :=
  bool_decide (Usb.idVendor usbDevice = 0x2c97%Z).

(** ** Reading the trace *)

(** The handles announced by [add], in order. *)
Definition adds (acts : list Action) : list ref :=
  omap (λ a, match a with EmitAdd ledger => Some ledger | _ => None end) acts.

(** [close()] on a handle, or a [remove] notification. *)
Definition is_removal (a : Action) : bool :=
  match a with
  | CallClose _ | EmitRemove _ => true
  | _ => false
  end.

(** The test of [getDetachedSigner]: a registered handle of the event's
    model whose path no enumerated device has. *)
Definition detached (usbDevice : DeviceModel.t) (attachedDevices : list Hid.t)
    (s : State) (signer : ref) : Prop :=
  Ledger.model (deref s signer) = DeviceModel.id usbDevice ∧
  Forall (λ device, Hid.path device ≠ Some (Ledger.devicePath (deref s signer)))
    attachedDevices.

(** No registered handle and no pending disconnection carries the empty
    path, which [handleAttachedDevice] reads as "no path". *)
Definition paths_nonempty (s : State) : Prop :=
  Forall (λ p, p ≠ "") (knownPaths s) ∧ Forall (λ p, p ≠ "") (pendingPaths s).

(** ** Array operations *)

Section array_facts.
Context {A : Type}.
Implicit Types (l : list A) (x : A).

Lemma findIndex_None (P : A → Prop) `{∀ x, Decision (P x)} l :
  Forall (λ x, ¬ P x) l → findIndex P l = (-1)%Z.
Proof.
  intros Hl. unfold findIndex.
  by rewrite (proj2 (list_find_None P l) Hl).
Qed.

Lemma findIndex_Some (P : A → Prop) `{∀ x, Decision (P x)} l i x :
  l !! i = Some x → P x → (∀ j y, l !! j = Some y → j < i → ¬ P y) →
  findIndex P l = Z.of_nat i.
Proof.
  intros Hi HP Hfirst. unfold findIndex.
  assert (list_find P l = Some (i, x)) as ->; [|done].
  apply list_find_Some; eauto.
Qed.

Lemma findIndex_cases (P : A → Prop) `{∀ x, Decision (P x)} l :
  (findIndex P l = (-1)%Z ∧ Forall (λ x, ¬ P x) l) ∨
  (∃ i x, findIndex P l = Z.of_nat i ∧ l !! i = Some x ∧ P x ∧
          ∀ j y, l !! j = Some y → j < i → ¬ P y).
Proof.
  unfold findIndex. destruct (list_find P l) as [[i x]|] eqn:E.
  - right. exists i, x. apply list_find_Some in E as (? & ? & ?). eauto.
  - left. by apply list_find_None in E.
Qed.

Lemma find_None (P : A → Prop) `{∀ x, Decision (P x)} l :
  Forall (λ x, ¬ P x) l → find P l = None.
Proof.
  intros Hl. unfold find. by rewrite (proj2 (list_find_None P l) Hl).
Qed.

Lemma find_first (P : A → Prop) `{∀ x, Decision (P x)} pre x post :
  Forall (λ y, ¬ P y) pre → P x → find P (pre ++ x :: post) = Some x.
Proof.
  intros Hpre HP. unfold find.
  assert (list_find P (pre ++ x :: post) = Some (length pre, x)) as ->; [|done].
  apply list_find_Some. split_and!; [by apply list_lookup_middle|done|].
  intros j y Hj Hlt. rewrite lookup_app_l in Hj by done.
  rewrite Forall_forall in Hpre. apply Hpre. by eapply list_elem_of_lookup_2.
Qed.

Lemma find_Some_elem (P : A → Prop) `{∀ x, Decision (P x)} l x :
  find P l = Some x → x ∈ l ∧ P x.
Proof.
  unfold find. destruct (list_find P l) as [[i y]|] eqn:E; [|done].
  intros [= <-]. apply list_find_Some in E as (Hi & HP & _).
  split; [by eapply list_elem_of_lookup_2|done].
Qed.

Lemma splice_index i l : splice (Z.of_nat i) l = delete i l.
Proof.
  unfold splice. case_decide; [lia|].
  destruct (decide (i < length l)).
  - f_equal. lia.
  - replace (Z.to_nat _) with (length l) by lia.
    rewrite !delete_take_drop, !take_ge, !drop_ge by lia. done.
Qed.

(** The slip behind [splice(indexOf(x), 1)]: index -1 removes the last
    element. *)
Lemma splice_minus_1 l : splice (-1) l = take (length l - 1) l.
Proof.
  unfold splice. case_decide; [|lia].
  destruct l as [|x l] using rev_ind; [done|].
  rewrite length_app. simpl.
  replace (Z.to_nat _) with (length l) by lia.
  replace (length l + 1 - 1) with (length l) by lia.
  rewrite delete_take_drop, take_app_length, drop_ge by (rewrite length_app; simpl; lia).
  by rewrite app_nil_r.
Qed.

Lemma splice_sublist i l : splice i l `sublist_of` l.
Proof. apply sublist_delete. Qed.

Lemma pop_nil : pop (@nil A) = (None, []).
Proof. done. Qed.

Lemma pop_snoc l x : pop (l ++ [x]) = (Some x, l).
Proof.
  unfold pop. rewrite last_snoc, length_app. simpl.
  replace (length l + 1 - 1) with (length l) by lia.
  by rewrite take_app_length.
Qed.

Lemma pop_cases l :
  (l = [] ∧ pop l = (None, [])) ∨ (∃ l' x, l = l' ++ [x] ∧ pop l = (Some x, l')).
Proof.
  destruct l as [|x l _] using rev_ind; [by left|].
  right. exists l, x. by rewrite pop_snoc.
Qed.

Lemma indexOf_delete `{EqDecision A} x l :
  NoDup l → x ∉ splice (indexOf x l) l.
Proof.
  intros Hnd. unfold indexOf.
  destruct (findIndex_cases (λ y, y = x) l) as [[-> Hl]|(i & y & -> & Hi & -> & _)].
  - intros Hin. apply (elem_of_sublist _ l) in Hin; [|apply splice_sublist].
    rewrite Forall_forall in Hl. by apply (Hl x).
  - rewrite splice_index. intros Hin.
    apply list_elem_of_lookup in Hin as [j Hj].
    apply NoDup_alt with (i := i) (j := if decide (j < i) then j else S j) (x := x) in Hnd; [| done |].
    + case_decide; lia.
    + case_decide.
      * by rewrite list_lookup_delete_lt in Hj.
      * by rewrite list_lookup_delete_ge in Hj by lia.
Qed.
End array_facts.

(** ** Changes that touch the derivation settings only *)

Lemma config_only_refl s : config_only s s.
Proof. by split. Qed.

Lemma config_only_trans s1 s2 s3 :
  config_only s1 s2 → config_only s2 s3 → config_only s1 s3.
Proof.
  intros [] []. split; congruence.
Qed.

Lemma deref_lookup s r : r < length (ledgers s) → ledgers s !! r = Some (deref s r).
Proof. apply list_lookup_lookup_total_lt. Qed.

Lemma lookup_deref s r l : ledgers s !! r = Some l → deref s r = l.
Proof. apply list_lookup_total_correct. Qed.

Lemma deref_updateDerivation ledger d a s r :
  deref (updateDerivation ledger d a s) r =
  if decide (r = ledger ∧ ledger < length (ledgers s))
  then Ledger.set_derivation
         (default (Store.derivation (store s)) d)
         (let a := default 0%Z a in
          if decide (a = 0%Z)
          then (if decide (default (Store.derivation (store s)) d = Derivation.live)
                then Store.liveAccountLimit (store s) else 0%Z)
          else a)
         (deref s ledger)
  else deref s r.
Proof.
  unfold updateDerivation, deref. simpl.
  destruct (decide (r = ledger ∧ _)) as [[-> Hlt]|Hr].
  - by rewrite list_lookup_total_insert_eq.
  - destruct (decide (ledger < length (ledgers s))).
    + rewrite list_lookup_total_insert_ne; [done|naive_solver].
    + by rewrite list_insert_ge by lia.
Qed.

Lemma updateDerivation_config_only ledger d a s :
  config_only s (updateDerivation ledger d a s).
Proof.
  split; try done.
  - unfold updateDerivation. simpl. by rewrite length_insert.
  - intros r. rewrite deref_updateDerivation. case_decide as H; [|done]. by destruct H as [-> _].
  - intros r. rewrite deref_updateDerivation. case_decide as H; [|done]. by destruct H as [-> _].
  - intros r. rewrite deref_updateDerivation. case_decide as H; [|done]. by destruct H as [-> _].
Qed.

Lemma config_only_knownPaths s s' : config_only s s' → knownPaths s' = knownPaths s.
Proof.
  intros Hco. unfold knownPaths. rewrite (co_known _ _ Hco).
  apply list_fmap_ext. intros _ r _. apply (co_devicePath _ _ Hco).
Qed.

Lemma config_only_wf s s' : config_only s s' → wf s → wf s'.
Proof.
  intros Hco [Hp Hr Hi]. split.
  - by rewrite (config_only_knownPaths _ _ Hco).
  - by rewrite (co_known _ _ Hco), (co_length _ _ Hco).
  - intros r l Hl.
    assert (r < length (ledgers s)) as Hlt.
    { rewrite <-(co_length _ _ Hco). by eapply lookup_lt_Some. }
    rewrite <-(lookup_deref _ _ _ Hl), (co_id _ _ Hco).
    apply Hi. by apply deref_lookup.
Qed.

Lemma observe_ledger_config_only d a s acts ledger :
  config_only s (observe_ledger d a (s, acts) ledger).1.
Proof.
  unfold observe_ledger. case_decide; simpl.
  - apply updateDerivation_config_only.
  - apply config_only_refl.
Qed.

Lemma foldl_observe_config_only d a k s acts :
  config_only s (foldl (observe_ledger d a) (s, acts) k).1.
Proof.
  revert s acts. induction k as [|r k IH]; intros s acts; simpl.
  - apply config_only_refl.
  - destruct (observe_ledger d a (s, acts) r) as [s1 acts1] eqn:E.
    eapply config_only_trans; [|apply IH].
    change s1 with (s1, acts1).1. rewrite <-E. apply observe_ledger_config_only.
Qed.

Lemma observerCallback_config_only s : config_only s (observerCallback s).1.
Proof. apply foldl_observe_config_only. Qed.

Lemma foldl_notify_config_only os s acts :
  config_only s (foldl notify (s, acts) os).1.
Proof.
  revert s acts. induction os as [|o os IH]; intros s acts; simpl.
  - apply config_only_refl.
  - destruct o; simpl; [|apply IH].
    destruct (observerCallback s) as [s1 acts1] eqn:E.
    eapply config_only_trans; [|apply IH].
    change s1 with (s1, acts1).1. rewrite <-E. apply observerCallback_config_only.
Qed.

(** ** The registry under attach, detach and expiry *)

Lemma NoDup_fmap_elem_inj {A B} (f : A → B) (l : list A) x y :
  NoDup (f <$> l) → x ∈ l → y ∈ l → f x = f y → x = y.
Proof.
  intros Hnd [i Hi]%list_elem_of_lookup [j Hj]%list_elem_of_lookup Hf.
  assert (i = j) as ->; [|congruence].
  eapply NoDup_alt; [done| |]; rewrite list_lookup_fmap.
  - by rewrite Hi.
  - rewrite Hj. simpl. by rewrite Hf.
Qed.

Lemma elem_of_knownPaths s ledger :
  ledger ∈ knownSigners s → Ledger.devicePath (deref s ledger) ∈ knownPaths s.
Proof. intros. unfold knownPaths. by apply (list_elem_of_fmap_2 (λ d, Ledger.devicePath (deref s d))). Qed.

(** The path is registered: the handle that has it is reused. *)
Lemma attachAtPath_existing usbDevice p openOk s ledger :
  wf s → ledger ∈ knownSigners s → Ledger.devicePath (deref s ledger) = p →
  attachAtPath usbDevice p openOk s =
    (updateDerivation ledger None None s,
     [CallOpen ledger] ++ (if openOk then [CallConnect ledger] else [])).
Proof.
  intros Hwf Hin Hp. unfold attachAtPath.
  destruct (findIndex_cases (λ l, Ledger.devicePath (deref s l) = p) (knownSigners s))
    as [[_ Hnone]|(i & x & -> & Hi & Hx & _)].
  - rewrite Forall_forall in Hnone. by destruct (Hnone ledger).
  - assert (x = ledger) as ->.
    { apply (NoDup_fmap_elem_inj (λ d, Ledger.devicePath (deref s d)) (knownSigners s));
        [apply Hwf|by eapply list_elem_of_lookup_2|done|congruence]. }
    rewrite decide_True by lia. rewrite Nat2Z.id.
    by rewrite (list_lookup_total_correct _ _ _ Hi).
Qed.

(** The path is not registered: a handle is constructed, announced and
    registered. *)
Lemma attachAtPath_new usbDevice p openOk s :
  p ∉ knownPaths s →
  let ledger := length (ledgers s) in
  attachAtPath usbDevice p openOk s =
    (updateDerivation ledger None None
       (with_knownSigners (knownSigners s ++ [ledger])
          (with_ledgers (ledgers s ++ [Ledger.new p (DeviceModel.id usbDevice) ledger]) s)),
     [EmitAdd ledger; CallOpen ledger] ++ (if openOk then [CallConnect ledger] else [])).
Proof.
  intros Hp ledger. unfold attachAtPath.
  rewrite findIndex_None; [by rewrite decide_False by lia|].
  apply Forall_forall. intros x Hx Hpx. apply Hp. rewrite <-Hpx.
  by apply elem_of_knownPaths.
Qed.

Lemma paths_alloc (h : list Ledger.t) obj (k : list ref) :
  Forall (λ r, r < length h) k →
  (λ d, Ledger.devicePath ((h ++ [obj]) !!! d)) <$> k =
  (λ d, Ledger.devicePath (h !!! d)) <$> k.
Proof.
  intros Hk. apply list_fmap_ext. intros i r Hr.
  rewrite Forall_forall in Hk.
  rewrite lookup_total_app_l; [done|]. apply Hk. by eapply list_elem_of_lookup_2.
Qed.

Lemma wf_alloc s p m :
  wf s → p ∉ knownPaths s →
  wf (with_knownSigners (knownSigners s ++ [length (ledgers s)])
        (with_ledgers (ledgers s ++ [Ledger.new p m (length (ledgers s))]) s)).
Proof.
  intros [Hp Hr Hi] Hfresh. split.
  - unfold knownPaths, deref in *. simpl. rewrite fmap_app.
    rewrite (paths_alloc _ _ _ Hr). simpl.
    rewrite lookup_total_app_r, Nat.sub_diag by lia. simpl.
    apply NoDup_app. split_and!; [done| |apply NoDup_singleton].
    intros x Hx ->%list_elem_of_singleton. by apply Hfresh.
  - simpl. rewrite length_app. simpl. apply Forall_app. split.
    + eapply Forall_impl; [done|]. simpl. lia.
    + apply Forall_singleton. lia.
  - simpl. intros r l Hl.
    destruct (decide (r < length (ledgers s))).
    + rewrite lookup_app_l in Hl by done. by apply Hi.
    + rewrite lookup_app_r in Hl by lia.
      destruct (r - length (ledgers s)) as [|m'] eqn:E; [|by destruct m'].
      simpl in Hl. injection Hl as <-. simpl. lia.
Qed.

Lemma getAttachedDevicePath_owned devices known :
  Forall (λ d, Hid.path_or_empty d ∈ known) devices →
  getAttachedDevicePath devices known = "".
Proof.
  intros Hall. unfold getAttachedDevicePath. rewrite find_None; [done|].
  eapply Forall_impl; [done|]. intros d Hd Hf. unfold includes in Hf.
  by apply bool_decide_eq_false in Hf.
Qed.

Lemma getAttachedDevicePath_first devices known p :
  first_unowned devices known p → getAttachedDevicePath devices known = p.
Proof.
  intros (pre & d & post & -> & Hpre & <- & Hd). unfold getAttachedDevicePath.
  rewrite (find_first _ pre d post).
  - simpl. unfold Hid.path_or_empty. by destruct (Hid.path d).
  - eapply Forall_impl; [done|]. intros d' Hd' Hf. unfold includes in Hf.
    by apply bool_decide_eq_false in Hf.
  - unfold includes. by rewrite bool_decide_eq_false.
Qed.

(** The three ways lines 75-94 can go. *)
Lemma resolveDevicePath_found devices s :
  getAttachedDevicePath devices (knownPaths s) ≠ "" →
  resolveDevicePath devices s =
    Some (getAttachedDevicePath devices (knownPaths s), s).
Proof. intros Hp. unfold resolveDevicePath. by rewrite decide_False. Qed.

Lemma resolveDevicePath_unresolved devices s :
  getAttachedDevicePath devices (knownPaths s) = "" → disconnections s = [] →
  resolveDevicePath devices s = None.
Proof.
  intros Hp Hd. unfold resolveDevicePath. by rewrite decide_True, Hd.
Qed.

Lemma resolveDevicePath_claim devices s ds pending :
  getAttachedDevicePath devices (knownPaths s) = "" →
  disconnections s = ds ++ [pending] →
  resolveDevicePath devices s =
    Some (Disconnection.devicePath pending,
          with_timeouts (<[Disconnection.timeout pending := None]> (timeouts s))
            (with_disconnections ds s)).
Proof.
  intros Hp Hd. unfold resolveDevicePath. by rewrite decide_True, Hd, pop_snoc.
Qed.

Lemma resolveDevicePath_frame devices s p s1 :
  resolveDevicePath devices s = Some (p, s1) →
  ledgers s1 = ledgers s ∧ knownSigners s1 = knownSigners s ∧
  observer s1 = observer s ∧ observers s1 = observers s ∧ store s1 = store s ∧
  disconnections s1 `sublist_of` disconnections s.
Proof.
  unfold resolveDevicePath. case_decide.
  - destruct (pop_cases (disconnections s)) as [[_ ->]|(ds & e & Hd & ->)]; [done|].
    intros [= <- <-]. simpl. split_and!; try done.
    rewrite Hd. by apply sublist_inserts_r.
  - by intros [= <- <-].
Qed.

(** A state with the same heap and registry is as well formed. *)
Lemma wf_same_registry s s' :
  ledgers s' = ledgers s → knownSigners s' = knownSigners s → wf s → wf s'.
Proof.
  intros Hl Hk [Hp Hr Hi]. split.
  - unfold knownPaths, deref in *. by rewrite Hl, Hk.
  - by rewrite Hl, Hk.
  - by rewrite Hl.
Qed.

Lemma attachAtPath_wf usbDevice p openOk s :
  wf s → wf (attachAtPath usbDevice p openOk s).1.
Proof.
  intros Hwf.
  destruct (decide (p ∈ knownPaths s)) as [Hin|Hout].
  - apply list_elem_of_fmap in Hin as (ledger & -> & Hin).
    rewrite (attachAtPath_existing _ _ _ _ ledger) by done. simpl.
    eapply config_only_wf; [apply updateDerivation_config_only|done].
  - rewrite attachAtPath_new by done. simpl.
    eapply config_only_wf; [apply updateDerivation_config_only|].
    by apply wf_alloc.
Qed.

Lemma handleAttachedDevice_wf usbDevice devices openOk s :
  wf s → wf (handleAttachedDevice usbDevice devices openOk s).1.
Proof.
  intros Hwf. unfold handleAttachedDevice.
  destruct (resolveDevicePath devices s) as [[p s1]|] eqn:E; [|done].
  apply resolveDevicePath_frame in E as (Hl & Hk & _).
  apply attachAtPath_wf. by apply (wf_same_registry s).
Qed.

Lemma handleDetachedDevice_wf w usbDevice devices s :
  wf s → wf (handleDetachedDevice w usbDevice devices s).1.
Proof.
  intros Hwf. unfold handleDetachedDevice.
  destruct (getDetachedSigner usbDevice devices s); [|done].
  destruct w; simpl; [done|]. by apply (wf_same_registry s).
Qed.

Lemma wf_sublist s k :
  k `sublist_of` knownSigners s → wf s → wf (with_knownSigners k s).
Proof.
  intros Hsub [Hp Hr Hi]. split; simpl; [| |done].
  - eapply sublist_NoDup; [done|].
    unfold knownPaths, deref. simpl. by apply fmap_sublist.
  - rewrite Forall_forall in Hr |- *. intros r Hin. apply Hr.
    by eapply elem_of_sublist.
Qed.

Lemma disconnectionTimeout_wf ledger s :
  wf s → wf (disconnectionTimeout ledger s).1.
Proof.
  intros Hwf. unfold disconnectionTimeout. simpl.
  apply (wf_sublist (with_disconnections _ s)); [apply splice_sublist|].
  by apply (wf_same_registry s).
Qed.

Lemma fireTimeout_wf t s : wf s → wf (fireTimeout t s).1.
Proof.
  intros Hwf. unfold fireTimeout.
  destruct (timeouts s !! t) as [[ledger|]|]; [|done..].
  apply disconnectionTimeout_wf. by apply (wf_same_registry s).
Qed.

Lemma storeChanged_wf st s : wf s → wf (storeChanged st s).1.
Proof.
  intros Hwf. unfold storeChanged.
  eapply config_only_wf; [apply foldl_notify_config_only|].
  by apply (wf_same_registry s).
Qed.

Lemma step_wf w e s : wf s → wf (step w e s).1.
Proof.
  intros Hwf. destruct e; simpl.
  - by apply handleAttachedDevice_wf.
  - by apply handleDetachedDevice_wf.
  - by apply fireTimeout_wf.
  - by apply storeChanged_wf.
  - by apply (wf_same_registry s).
  - unfold close. destruct (observer s); [|done]. by apply (wf_same_registry s).
Qed.

Lemma constructor_wf st : wf (constructor st).
Proof. split; simpl; [apply NoDup_nil_2|done|by intros r l]. Qed.

Lemma run_snoc w es e s :
  run w (es ++ [e]) s =
  ((step w e (run w es s).1).1, (run w es s).2 ++ (step w e (run w es s).1).2).
Proof.
  unfold run. rewrite foldl_snoc.
  by destruct (step w e _).
Qed.

(** An invariant of [step] holds after every sequence of events. *)
Lemma run_invariant (P : State → Prop) w :
  (∀ e s, P s → P (step w e s).1) →
  ∀ es s, P s → P (run w es s).1.
Proof.
  intros Hstep es. induction es as [|e es IH] using rev_ind; intros s Hs; [done|].
  rewrite run_snoc. simpl. by apply Hstep, IH.
Qed.

Lemma run_wf w es s : wf s → wf (run w es s).1.
Proof. apply run_invariant. intros e s'. apply step_wf. Qed.

(** ** Objects keep their identity *)

Lemma grows_refl s : grows s s.
Proof. intros r l Hl. eauto. Qed.

Lemma grows_trans s1 s2 s3 : grows s1 s2 → grows s2 s3 → grows s1 s3.
Proof.
  intros H12 H23 r l Hl.
  destruct (H12 r l Hl) as (l2 & Hl2 & ? & ? & ?).
  destruct (H23 r l2 Hl2) as (l3 & Hl3 & ? & ? & ?).
  exists l3. split_and!; congruence.
Qed.

Lemma grows_same_ledgers s s' : ledgers s' = ledgers s → grows s s'.
Proof. intros Hl r l Hr. rewrite Hl. eauto. Qed.

Lemma config_only_grows s s' : config_only s s' → grows s s'.
Proof.
  intros Hco r l Hl.
  assert (r < length (ledgers s')) as Hlt.
  { rewrite (co_length _ _ Hco). by eapply lookup_lt_Some. }
  exists (deref s' r). rewrite <-(lookup_deref _ _ _ Hl).
  split_and!; [by apply deref_lookup|apply Hco..].
Qed.

Lemma attachAtPath_grows usbDevice p openOk s :
  wf s → grows s (attachAtPath usbDevice p openOk s).1.
Proof.
  intros Hwf.
  destruct (decide (p ∈ knownPaths s)) as [Hin|Hout].
  - apply list_elem_of_fmap in Hin as (ledger & -> & Hin).
    rewrite (attachAtPath_existing _ _ _ _ ledger) by done. simpl.
    apply config_only_grows, updateDerivation_config_only.
  - rewrite attachAtPath_new by done. simpl.
    eapply grows_trans; [|apply config_only_grows, updateDerivation_config_only].
    intros r l Hl. exists l. simpl. by rewrite lookup_app_l by by eapply lookup_lt_Some.
Qed.

Lemma step_grows w e s : wf s → grows s (step w e s).1.
Proof.
  intros Hwf. destruct e; simpl.
  - unfold handleAttachedDevice.
    destruct (resolveDevicePath devices s) as [[p s1]|] eqn:E; [|apply grows_refl].
    apply resolveDevicePath_frame in E as (Hl & Hk & _).
    eapply grows_trans; [by apply grows_same_ledgers|].
    apply attachAtPath_grows. by apply (wf_same_registry s).
  - apply grows_same_ledgers. unfold handleDetachedDevice.
    destruct (getDetachedSigner usbDevice devices s); [|done]. by destruct w.
  - apply grows_same_ledgers. unfold fireTimeout.
    by destruct (timeouts s !! t) as [[ledger|]|].
  - unfold storeChanged.
    eapply grows_trans; [|apply config_only_grows, foldl_notify_config_only].
    by apply grows_same_ledgers.
  - by apply grows_same_ledgers.
  - apply grows_same_ledgers. unfold close. by destruct (observer s).
Qed.

Lemma run_grows w es s : wf s → grows s (run w es s).1.
Proof.
  intros Hwf. induction es as [|e es IH] using rev_ind; [apply grows_refl|].
  rewrite run_snoc. simpl.
  eapply grows_trans; [done|]. by apply step_grows, run_wf.
Qed.

Lemma wf_ids_NoDup s : wf s → NoDup (Ledger.id <$> ledgers s).
Proof.
  intros Hwf. apply NoDup_alt. intros i j x.
  rewrite !list_lookup_fmap.
  destruct (ledgers s !! i) as [li|] eqn:Ei; [|done].
  destruct (ledgers s !! j) as [lj|] eqn:Ej; [|done].
  simpl. intros [= <-] [= Hij].
  by rewrite <-(wf_ids _ Hwf _ _ Ei), <-(wf_ids _ Hwf _ _ Ej).
Qed.

Lemma attachAtPath_frame usbDevice p openOk s :
  let s' := (attachAtPath usbDevice p openOk s).1 in
  disconnections s' = disconnections s ∧ timeouts s' = timeouts s ∧
  observer s' = observer s ∧ observers s' = observers s ∧ store s' = store s.
Proof. unfold attachAtPath. by case_decide. Qed.

Lemma getDetachedSigner_known usbDevice gone s ledger :
  getDetachedSigner usbDevice gone s = Some ledger → ledger ∈ knownSigners s.
Proof. intros H. by apply find_Some_elem in H as [? _]. Qed.

(** What a resolved detach does where disconnections are tracked. *)
Lemma handleDetachedDevice_tracked usbDevice gone s ledger :
  getDetachedSigner usbDevice gone s = Some ledger →
  handleDetachedDevice false usbDevice gone s =
    (with_disconnections
       (disconnections s ++
          [Disconnection.Make (Ledger.devicePath (deref s ledger)) (length (timeouts s))])
       (with_timeouts (timeouts s ++ [Some ledger]) s),
     [CallDisconnect ledger]).
Proof. intros H. unfold handleDetachedDevice. by rewrite H. Qed.

(** What a resolved detach does on Windows. *)
Lemma handleDetachedDevice_windows usbDevice gone s ledger :
  getDetachedSigner usbDevice gone s = Some ledger →
  handleDetachedDevice true usbDevice gone s = (s, [CallDisconnect ledger]).
Proof. intros H. unfold handleDetachedDevice. by rewrite H. Qed.

(** An attach that finds every enumerated path registered takes the most
    recent pending disconnection and reuses the handle at its path. *)
Lemma handleAttachedDevice_claims usbDevice devices openOk s ds pending ledger :
  wf s →
  Forall (λ d, Hid.path_or_empty d ∈ knownPaths s) devices →
  disconnections s = ds ++ [pending] →
  ledger ∈ knownSigners s →
  Ledger.devicePath (deref s ledger) = Disconnection.devicePath pending →
  handleAttachedDevice usbDevice devices openOk s =
    (updateDerivation ledger None None
       (with_timeouts (<[Disconnection.timeout pending := None]> (timeouts s))
          (with_disconnections ds s)),
     [CallOpen ledger] ++ (if openOk then [CallConnect ledger] else [])).
Proof.
  intros Hwf Hdev Hd Hin Hp. unfold handleAttachedDevice.
  rewrite (resolveDevicePath_claim _ _ ds pending);
    [|by apply getAttachedDevicePath_owned|done].
  apply attachAtPath_existing; [by apply (wf_same_registry s)|done..].
Qed.

(** ** The claims *)

(** C2. After every sequence of events from a fresh adapter (attach,
    detach, timer expiry, store change, open, close) the registry holds no
    two handles with the same [devicePath]; the ids of all handles ever
    constructed are pairwise distinct, every registered handle is one of
    them, and a handle keeps its id through all later events, so no id is
    used a second time. *)
Theorem registry_paths_and_ids_unique (w : bool) (st : Store.t) (es es' : list Event) :
  let s := (run w es (constructor st)).1 in
  let s' := (run w es' s).1 in
  NoDup (knownPaths s) ∧
  NoDup (Ledger.id <$> ledgers s) ∧
  Forall (λ r, is_Some (ledgers s !! r)) (knownSigners s) ∧
  (∀ r l, ledgers s !! r = Some l →
     ∃ l', ledgers s' !! r = Some l' ∧ Ledger.id l' = Ledger.id l).
Proof.
  intros s s'.
  assert (wf s) as Hwf by apply run_wf, constructor_wf.
  split_and!.
  - apply Hwf.
  - by apply wf_ids_NoDup.
  - eapply Forall_impl; [apply Hwf|]. intros r Hr. by apply lookup_lt_is_Some.
  - intros r l Hl.
    destruct (run_grows w es' s Hwf r l Hl) as (l' & ? & ? & _). eauto.
Qed.

(** C1 (amended).  A device detaches where disconnections are tracked and
    its handle is resolved; it reattaches before the timer fires, with no
    event in between, while every enumerated path belongs to a registered
    handle (it came back under the path it had).  Then the attach reuses
    the handle: the registry and the pending disconnections are as before
    the detach, the handle has the same [id] and [devicePath], the removal
    timer is cleared, and the attach only opens and connects the handle, so
    neither [add] nor [remove] is emitted. *)
Theorem reattach_same_path_reuses_handle
    (usbDevice usbDevice' : DeviceModel.t) (gone devices : list Hid.t)
    (openOk : bool) (s : State) (ledger : ref) :
  wf s →
  getDetachedSigner usbDevice gone s = Some ledger →
  let s1 := (handleDetachedDevice false usbDevice gone s).1 in
  Forall (λ d, Hid.path_or_empty d ∈ knownPaths s1) devices →
  let s2 := (handleAttachedDevice usbDevice' devices openOk s1).1 in
  let acts := (handleAttachedDevice usbDevice' devices openOk s1).2 in
  knownSigners s2 = knownSigners s ∧
  ledger ∈ knownSigners s2 ∧
  Ledger.id (deref s2 ledger) = Ledger.id (deref s ledger) ∧
  Ledger.devicePath (deref s2 ledger) = Ledger.devicePath (deref s ledger) ∧
  disconnections s2 = disconnections s ∧
  timeouts s2 = timeouts s ++ [None] ∧
  acts = [CallOpen ledger] ++ (if openOk then [CallConnect ledger] else []) ∧
  (∀ r, EmitAdd r ∉ acts) ∧ (∀ i, EmitRemove i ∉ acts).
Proof.
  intros Hwf Hres s1 Hdev s2 acts.
  pose proof (getDetachedSigner_known _ _ _ _ Hres) as Hin.
  assert (wf s1) as Hwf1 by by apply handleDetachedDevice_wf.
  subst s2 acts. revert Hdev Hwf1. subst s1.
  rewrite (handleDetachedDevice_tracked _ _ _ _ Hres). simpl. intros Hdev Hwf1.
  erewrite handleAttachedDevice_claims; [|done|done|simpl; done|done|done].
  simpl.
  set (s1 := with_timeouts _ (with_disconnections _ _)).
  pose proof (updateDerivation_config_only ledger None None s1) as Hco.
  split_and!; try done.
  - by rewrite (co_id _ _ Hco).
  - by rewrite (co_devicePath _ _ Hco).
  - by rewrite insert_app_r_alt, Nat.sub_diag by lia.
  - intros r Hr%list_elem_of_In. destruct openOk; simpl in Hr; intuition discriminate.
  - intros r Hr%list_elem_of_In. destruct openOk; simpl in Hr; intuition discriminate.
Qed.

(** C1, at an instance: /dev/A attaches, detaches and comes back as
    /dev/A. *)
Lemma reattach_same_path_reuses_handle_witness :
  let s := (run false [Attached nanoS [dev_A] true] (constructor legacy_5)).1 in
  let s1 := (handleDetachedDevice false nanoS [] s).1 in
  let s2 := (handleAttachedDevice nanoS [dev_A] true s1).1 in
  let acts := (handleAttachedDevice nanoS [dev_A] true s1).2 in
  (wf s ∧ getDetachedSigner nanoS [] s = Some 0 ∧
   Forall (λ d, Hid.path_or_empty d ∈ knownPaths s1) [dev_A]) ∧
  knownSigners s2 = knownSigners s ∧
  0 ∈ knownSigners s2 ∧
  Ledger.id (deref s2 0) = Ledger.id (deref s 0) ∧
  Ledger.devicePath (deref s2 0) = Ledger.devicePath (deref s 0) ∧
  disconnections s2 = disconnections s ∧
  timeouts s2 = timeouts s ++ [None] ∧
  acts = [CallOpen 0] ++ [CallConnect 0] ∧
  (∀ r, EmitAdd r ∉ acts) ∧ (∀ i, EmitRemove i ∉ acts).
Proof.
  intros s s1 s2 acts.
  assert (wf s) as Hwf by apply run_wf, constructor_wf.
  assert (getDetachedSigner nanoS [] s = Some 0) as Hres by reflexivity.
  assert (Forall (λ d, Hid.path_or_empty d ∈ knownPaths s1) [dev_A]) as Hdev
    by by_evaluation.
  split; [done|].
  exact (reattach_same_path_reuses_handle nanoS nanoS [] [dev_A] true s 0 Hwf Hres Hdev).
Defined.

(** C1 as stated fails when the device comes back under another path:
    /dev/A attaches and detaches, and while its removal timer is pending
    /dev/B attaches.  The attach constructs a second handle with another
    id and emits [add]; the first handle keeps the path /dev/A and its
    pending disconnection, and when the timer fires it is removed and
    [remove] is emitted. *)
Lemma reattach_other_path_makes_new_handle :
  let s1 := (run false [Attached nanoS [dev_A] true; Detached nanoS []]
               (constructor legacy_5)).1 in
  let s2 := (handleAttachedDevice nanoS [dev_B] true s1).1 in
  let acts := (handleAttachedDevice nanoS [dev_B] true s1).2 in
  (knownSigners s1 = [0] ∧ pendingPaths s1 = ["/dev/A"] ∧ timeouts s1 = [Some 0]) ∧
  knownSigners s2 = [0; 1] ∧
  acts = [EmitAdd 1; CallOpen 1; CallConnect 1] ∧
  Ledger.devicePath (deref s2 0) = "/dev/A" ∧
  Ledger.devicePath (deref s2 1) = "/dev/B" ∧
  Ledger.id (deref s2 1) ≠ Ledger.id (deref s2 0) ∧
  pendingPaths s2 = ["/dev/A"] ∧
  (fireTimeout 0 s2).2 = [CallClose 0; EmitRemove 0] ∧
  knownSigners (fireTimeout 0 s2).1 = [1].
Proof. vm_compute. split_and!; done. Qed.

(** C3 at the failing input: on Windows, /dev/A attaches and detaches.  The
    detach resolves the handle and disconnects it, and nothing else: the
    handle stays in the registry and [close()] is not called. *)
Lemma windows_detach_keeps_handle :
  let s := (run true [Attached nanoS [dev_A] true] (constructor legacy_5)).1 in
  getDetachedSigner nanoS [] s = Some 0 ∧
  handleDetachedDevice true nanoS [] s = (s, [CallDisconnect 0]) ∧
  knownSigners s = [0] ∧ disconnections s = [] ∧ timeouts s = [].
Proof. vm_compute. split_and!; done. Qed.

(** At attach time the handle gets the effective configuration of the
    store: the account limit is 0 unless the scheme is the live one. *)
Lemma attachAtPath_effective usbDevice p openOk s :
  wf s →
  ∃ ledger, CallOpen ledger ∈ (attachAtPath usbDevice p openOk s).2 ∧
    config (deref (attachAtPath usbDevice p openOk s).1 ledger) = effective (store s).
Proof.
  intros Hwf.
  destruct (decide (p ∈ knownPaths s)) as [Hin|Hout].
  - apply list_elem_of_fmap in Hin as (ledger & -> & Hin).
    rewrite (attachAtPath_existing _ _ _ _ ledger) by done. simpl.
    exists ledger. split; [apply list_elem_of_here|].
    rewrite deref_updateDerivation, decide_True; [done|].
    split; [done|]. pose proof (wf_refs _ Hwf) as Hr.
    rewrite Forall_forall in Hr. by apply Hr.
  - rewrite attachAtPath_new by done. simpl.
    exists (length (ledgers s)). split; [apply list_elem_of_further, list_elem_of_here|].
    rewrite deref_updateDerivation, decide_True; [done|].
    split; [done|]. simpl. rewrite length_app. simpl. lia.
Qed.

(** C4 at the failing input: a signer attached under the legacy scheme,
    then the store changes to the standard scheme while the live account
    limit is 5.  The observer stores the limit 5 on the signer although its
    scheme is not the live one. *)
Lemma observer_stores_limit_without_live :
  let s := (run false [Open; Attached nanoS [dev_A] true] (constructor legacy_5)).1 in
  let s' := (storeChanged standard_5 s).1 in
  config (deref s 0) = ("legacy", 0%Z) ∧
  (storeChanged standard_5 s).2 = [CallDeriveAddresses 0] ∧
  config (deref s' 0) = ("standard", 5%Z) ∧
  effective standard_5 = ("standard", 0%Z) ∧
  Ledger.derivation (deref s' 0) ≠ Derivation.live.
Proof. vm_compute. split_and!; done. Qed.

(** ** The observer's callback *)












(** ** Expiry *)

Lemma disconnectionTimeout_removes ledger s :
  NoDup (knownSigners s) →
  let s' := (disconnectionTimeout ledger s).1 in
  (ledger ∉ knownSigners s') ∧
  (disconnectionTimeout ledger s).2 =
    [CallClose ledger; EmitRemove (Ledger.id (deref s ledger))] ∧
  ledgers s' = ledgers s ∧ timeouts s' = timeouts s.
Proof.
  intros Hnd. unfold disconnectionTimeout. simpl.
  split_and!; [|done..]. by apply indexOf_delete.
Qed.

(** Removing a registered handle takes exactly that handle out. *)
Lemma splice_indexOf_present (k1 k2 : list ref) ledger :
  ledger ∉ k1 →
  splice (indexOf ledger (k1 ++ ledger :: k2)) (k1 ++ ledger :: k2) = k1 ++ k2.
Proof.
  intros Hk1. unfold indexOf.
  rewrite (findIndex_Some _ _ (length k1) ledger).
  - rewrite splice_index, delete_take_drop.
    rewrite take_app_length, cons_middle, app_assoc.
    by rewrite drop_app_length' by (rewrite length_app; simpl; lia).
  - by apply list_lookup_middle.
  - done.
  - intros j y Hj Hlt ->. rewrite lookup_app_l in Hj by done.
    apply Hk1. by eapply list_elem_of_lookup_2.
Qed.

(** One firing.  A detach that resolves a handle where disconnections are
    tracked starts a removal timer for it and leaves the handle
    registered.  When that timer, still pending, fires in a well-formed
    state, the handle is not in the registry afterwards, this firing calls
    the handle's [close()] once and emits [remove] with the handle's id
    once, and the timer is spent.  If the handle was still registered, it
    is exactly the handle that leaves the registry.  Nothing is said here
    about other timers that hold the same handle. *)
Lemma expiry_removes_and_closes
    (usbDevice : DeviceModel.t) (gone : list Hid.t) (s : State) (ledger : ref) :
  wf s →
  getDetachedSigner usbDevice gone s = Some ledger →
  let s1 := (handleDetachedDevice false usbDevice gone s).1 in
  let t := length (timeouts s) in
  timeouts s1 !! t = Some (Some ledger) ∧ ledger ∈ knownSigners s1 ∧
  ∀ s2, wf s2 → timeouts s2 !! t = Some (Some ledger) →
    let s3 := (fireTimeout t s2).1 in
    (ledger ∉ knownSigners s3) ∧
    (fireTimeout t s2).2 =
      [CallClose ledger; EmitRemove (Ledger.id (deref s2 ledger))] ∧
    timeouts s3 !! t = Some None ∧
    (∀ k1 k2, knownSigners s2 = k1 ++ ledger :: k2 → knownSigners s3 = k1 ++ k2).
Proof.
  intros Hwf Hres s1 t. subst s1 t.
  rewrite (handleDetachedDevice_tracked _ _ _ _ Hres). simpl.
  split_and!.
  - by rewrite lookup_app_r, Nat.sub_diag by lia.
  - by eapply getDetachedSigner_known.
  - intros s2 Hwf2 Ht. unfold fireTimeout. rewrite Ht.
    assert (NoDup (knownSigners s2)) as Hnd.
    { eapply NoDup_fmap_1. apply Hwf2. }
    set (s2' := with_timeouts _ s2).
    destruct (disconnectionTimeout_removes ledger s2') as (Hout & Hacts & Hl & Hts); [done|].
    split_and!; [done|done| |].
    + rewrite Hts. simpl. apply list_lookup_insert_eq. by eapply lookup_lt_Some.
    + intros k1 k2 Hk. unfold disconnectionTimeout. simpl. rewrite Hk.
      apply splice_indexOf_present.
      rewrite Hk in Hnd. apply NoDup_app in Hnd as (_ & Hdisj & _).
      intros Hin. apply (Hdisj _ Hin), list_elem_of_here.
Qed.

(** At an instance: /dev/A attaches and detaches, nothing comes back, the
    timer fires. *)
Lemma expiry_removes_and_closes_witness :
  let s := (run false [Attached nanoS [dev_A] true] (constructor legacy_5)).1 in
  let s1 := (handleDetachedDevice false nanoS [] s).1 in
  (wf s ∧ getDetachedSigner nanoS [] s = Some 0) ∧
  timeouts s1 !! 0 = Some (Some 0) ∧ 0 ∈ knownSigners s1 ∧
  (0 ∉ knownSigners (fireTimeout 0 s1).1) ∧
  (fireTimeout 0 s1).2 = [CallClose 0; EmitRemove 0] ∧
  timeouts (fireTimeout 0 s1).1 !! 0 = Some None ∧
  knownSigners (fireTimeout 0 s1).1 = [].
Proof.
  intros s s1.
  assert (wf s) as Hwf by apply run_wf, constructor_wf.
  assert (getDetachedSigner nanoS [] s = Some 0) as Hres by reflexivity.
  destruct (expiry_removes_and_closes nanoS [] s 0 Hwf Hres) as (Ht & Hin & Hfire).
  destruct (Hfire s1) as (Hout & Hacts & Hspent & Hrest).
  - by apply handleDetachedDevice_wf.
  - exact Ht.
  - split_and!; [done|done|exact Ht|exact Hin|exact Hout|exact Hacts|exact Hspent|].
    exact (Hrest [] [] eq_refl).
Defined.

(** C7 at the failing input: two devices of the same model, /dev/A and
    /dev/B, are registered and both disappear; each of the two detach
    events resolves to the first handle, so two timers hold it.  After the
    first timer the handle is gone from the registry; the second timer
    removes it again, and what leaves the registry is the last entry, the
    handle of /dev/B, which is never closed. *)
Lemma remove_absent_handle_drops_last :
  let s := (run false
              [Attached nanoS [dev_A] true;
               Attached nanoS [dev_A; dev_B] true;
               Detached nanoS [];
               Detached nanoS [];
               TimeoutFired 0]
              (constructor legacy_5)).1 in
  timeouts s = [None; Some 0] ∧
  knownSigners s = [1] ∧
  indexOf 0 (knownSigners s) = (-1)%Z ∧
  knownSigners (fireTimeout 1 s).1 = [] ∧
  (fireTimeout 1 s).2 = [CallClose 0; EmitRemove 0] ∧
  knownSigners (disconnectionTimeout 0 s).1 ≠ knownSigners s.
Proof. vm_compute. split_and!; done. Qed.

(** ** The observer subscription *)

Lemma step_observer w e s : is_Some (observer s) → is_Some (observer (step w e s).1).
Proof.
  intros Ho. destruct e; simpl.
  - unfold handleAttachedDevice.
    destruct (resolveDevicePath devices s) as [[p s1]|] eqn:E; [|done].
    apply resolveDevicePath_frame in E as (_ & _ & Ho1 & _).
    destruct (attachAtPath_frame usbDevice p openOk s1) as (_ & _ & -> & _).
    by rewrite Ho1.
  - unfold handleDetachedDevice.
    destruct (getDetachedSigner usbDevice devices s); [|done]. by destruct w.
  - unfold fireTimeout. by destruct (timeouts s !! t) as [[ledger|]|].
  - unfold storeChanged.
    by rewrite (co_observer _ _ (foldl_notify_config_only _ _ _)).
  - done.
  - unfold close. by destruct (observer s).
Qed.

(** C8 (amended).  Once [open()] has run, whatever events follow,
    [close()] does not throw: it removes the subscription [this.observer]
    holds and calls [super.close()]. *)
Theorem close_after_open_is_safe (w : bool) (s : State) (es : list Event) :
  let s1 := (run w es (open s).1).1 in
  ∃ o, observer s1 = Some o ∧
       close s1 =
         Normal (with_observer (Some o) (<[o := false]> (observers s1)) s1,
                 [SuperClose]).
Proof.
  intros s1.
  assert (is_Some (observer s1)) as [o Ho].
  { apply (run_invariant (λ s, is_Some (observer s)) w); [apply step_observer|done]. }
  exists o. split; [done|]. unfold close. by rewrite Ho.
Qed.

(** C8 as stated fails: on an adapter whose [open()] was never called,
    [this.observer] is undefined and [close()] throws. *)
Lemma close_before_open_throws :
  observer (constructor legacy_5) = None ∧
  close (constructor legacy_5) = ThrowTypeError.
Proof. done. Qed.

(** ** Pending disconnections *)

(** A device reported gone twice: both detach events resolve its handle,
    and two pending entries with its path and two timers result. *)
Lemma detach_twice_two_pending_entries :
  let s := (run false
              [Attached nanoS [dev_A] true; Detached nanoS []; Detached nanoS []]
              (constructor legacy_5)).1 in
  pendingPaths s = ["/dev/A"; "/dev/A"] ∧ timeouts s = [Some 0; Some 0] ∧
  ¬ NoDup (pendingPaths s).
Proof.
  vm_compute. split_and!; [done..|].
  intros Hnd. apply NoDup_cons in Hnd as [Hnotin _].
  apply Hnotin, list_elem_of_here.
Qed.

(** ** Path resolution at attach *)

(** C10 (amended).  When the first enumerated device that no registry
    entry owns carries a non-empty path [p], the attach is resolved to [p]
    without reading or changing the pending disconnections and the timers,
    and a new handle at [p] is announced and registered.  An attach changes
    the pending disconnections or the timers only when the path lookup came
    back empty (no first unowned device with a non-empty path); it then
    takes the most recent entry, clears that entry's timer and continues
    with that entry's path. *)
Theorem attach_prefers_unowned_path
    (usbDevice : DeviceModel.t) (devices : list Hid.t) (openOk : bool) (s : State) :
  let s' := (handleAttachedDevice usbDevice devices openOk s).1 in
  let acts := (handleAttachedDevice usbDevice devices openOk s).2 in
  (∀ p, first_unowned devices (knownPaths s) p → p ≠ "" →
     resolveDevicePath devices s = Some (p, s) ∧
     disconnections s' = disconnections s ∧ timeouts s' = timeouts s ∧
     knownSigners s' = knownSigners s ++ [length (ledgers s)] ∧
     Ledger.devicePath (deref s' (length (ledgers s))) = p ∧
     acts = [EmitAdd (length (ledgers s)); CallOpen (length (ledgers s))] ++
            (if openOk then [CallConnect (length (ledgers s))] else [])) ∧
  (disconnections s' ≠ disconnections s ∨ timeouts s' ≠ timeouts s →
     getAttachedDevicePath devices (knownPaths s) = "" ∧
     (∀ q, first_unowned devices (knownPaths s) q → q = "") ∧
     ∃ ds pending,
       disconnections s = ds ++ [pending] ∧
       resolveDevicePath devices s =
         Some (Disconnection.devicePath pending,
               with_timeouts (<[Disconnection.timeout pending := None]> (timeouts s))
                 (with_disconnections ds s)) ∧
       disconnections s' = ds ∧
       timeouts s' = <[Disconnection.timeout pending := None]> (timeouts s)).
Proof.
  intros s' acts. subst s' acts. split.
  - intros p Hfirst Hp.
    pose proof (getAttachedDevicePath_first _ _ _ Hfirst) as Hget.
    assert (resolveDevicePath devices s = Some (p, s)) as Hres.
    { rewrite <-Hget. apply resolveDevicePath_found. by rewrite Hget. }
    unfold handleAttachedDevice. rewrite Hres.
    destruct Hfirst as (_ & _ & _ & _ & _ & _ & Hout).
    rewrite attachAtPath_new by done. simpl.
    split_and!; try done.
    rewrite deref_updateDerivation, decide_True.
    + unfold deref. simpl. by rewrite lookup_total_app_r, Nat.sub_diag by lia.
    + split; [done|]. simpl. rewrite length_app. simpl. lia.
  - unfold handleAttachedDevice.
    destruct (decide (getAttachedDevicePath devices (knownPaths s) = "")) as [Hget|Hget].
    + destruct (pop_cases (disconnections s)) as [[Hd _]|(ds & pending & Hd & _)].
      * rewrite resolveDevicePath_unresolved by done. simpl. by intros [?|?].
      * rewrite (resolveDevicePath_claim _ _ ds pending) by done.
        set (s1 := with_timeouts _ _).
        destruct (attachAtPath_frame usbDevice (Disconnection.devicePath pending) openOk s1)
          as (Hdisc & Htime & _).
        intros _. split_and!; [done| |].
        -- intros q Hq. by rewrite <-(getAttachedDevicePath_first _ _ _ Hq).
        -- exists ds, pending. by rewrite Hdisc, Htime.
    + rewrite resolveDevicePath_found by done.
      destruct (attachAtPath_frame usbDevice
                  (getAttachedDevicePath devices (knownPaths s)) openOk s)
        as (Hdisc & Htime & _).
      by intros [?|?].
Qed.

(** C10, at an instance: /dev/A is registered with a pending
    disconnection, /dev/B shows up. *)
Lemma attach_prefers_unowned_path_witness :
  let s := (run false [Attached nanoS [dev_A] true; Detached nanoS []]
              (constructor legacy_5)).1 in
  let s' := (handleAttachedDevice nanoS [dev_B] true s).1 in
  first_unowned [dev_B] (knownPaths s) "/dev/B" ∧
  resolveDevicePath [dev_B] s = Some ("/dev/B", s) ∧
  disconnections s' = disconnections s ∧ timeouts s' = timeouts s ∧
  knownSigners s' = [0; 1] ∧
  Ledger.devicePath (deref s' 1) = "/dev/B".
Proof.
  intros s s'.
  assert (first_unowned [dev_B] (knownPaths s) "/dev/B") as Hfirst.
  { exists [], dev_B, []. split_and!; [done|apply Forall_nil_2|done|by_evaluation]. }
  split; [done|].
  destruct (attach_prefers_unowned_path nanoS [dev_B] true s) as [Hfound _].
  destruct (Hfound "/dev/B" Hfirst) as (Hres & Hd & Ht & Hk & Hp & _); [done|].
  split_and!; [exact Hres|exact Hd|exact Ht|exact Hk|exact Hp].
Defined.

(** C10 as stated fails when a device without a path is enumerated before
    the unowned one: /dev/A is registered with a pending disconnection and
    the enumeration is a device without a path followed by /dev/B.  The
    path /dev/B is not owned and is reported, yet the lookup comes back
    empty, the pending disconnection of /dev/A is taken, its timer is
    cleared, and the event is resolved to /dev/A. *)
Lemma pathless_device_hides_unowned_path :
  let s := (run false [Attached nanoS [dev_A] true; Detached nanoS []]
              (constructor legacy_5)).1 in
  let devices := [dev_nopath; dev_B] in
  let s' := (handleAttachedDevice nanoS devices true s).1 in
  (dev_B ∈ devices ∧ Hid.path dev_B = Some "/dev/B" ∧ "/dev/B" ∉ knownPaths s) ∧
  (pendingPaths s = ["/dev/A"] ∧ timeouts s = [Some 0]) ∧
  getAttachedDevicePath devices (knownPaths s) = "" ∧
  resolveDevicePath devices s ≠ Some ("/dev/B", s) ∧
  pendingPaths s' = [] ∧ timeouts s' = [None] ∧ knownSigners s' = [0] ∧
  (handleAttachedDevice nanoS devices true s).2 = [CallOpen 0; CallConnect 0].
Proof.
  intros s devices s'.
  split_and!; try (vm_compute; reflexivity).
  - apply list_elem_of_further, list_elem_of_here.
  - by_evaluation.
  - vm_compute. discriminate.
Qed.

(** ** Further properties of the adapter *)

Section find_facts.
Context {A : Type}.

Lemma find_Some_split (P : A → Prop) `{∀ x, Decision (P x)} (l : list A) x :
  find P l = Some x ↔
  ∃ pre post, l = pre ++ x :: post ∧ P x ∧ Forall (λ y, ¬ P y) pre.
Proof.
  split.
  - unfold find. destruct (list_find P l) as [[i y]|] eqn:E; [|done].
    intros [= <-]. apply list_find_Some in E as (Hi & HP & Hfirst).
    exists (take i l), (drop (S i) l). split_and!; [|done|].
    + by rewrite take_drop_middle.
    + apply Forall_forall. intros z [j Hj]%list_elem_of_lookup.
      apply lookup_take_Some in Hj as [Hj Hlt]. by eapply Hfirst.
  - intros (pre & post & -> & HP & Hpre). by apply find_first.
Qed.

Lemma find_None_iff (P : A → Prop) `{∀ x, Decision (P x)} (l : list A) :
  find P l = None ↔ Forall (λ y, ¬ P y) l.
Proof.
  split; [|apply find_None].
  unfold find. destruct (list_find P l) as [[i y]|] eqn:E; [done|].
  intros _. by apply list_find_None in E.
Qed.
End find_facts.

Lemma some_false_iff {A} (P : A → Prop) `{∀ x, Decision (P x)} (l : list A) :
  some P l = false ↔ Forall (λ x, ¬ P x) l.
Proof.
  unfold some. rewrite bool_decide_eq_false. split.
  - intros Hn. apply Forall_forall. intros x Hx HP. apply Hn, Exists_exists. eauto.
  - intros Hall (x & Hx & HP)%Exists_exists. rewrite Forall_forall in Hall.
    by apply (Hall x).
Qed.

(** [getAttachedDevicePath] answers the empty string or the path of an
    enumerated device that no known path equals; it answers the empty
    string when every enumerated device is known, in particular when none
    is enumerated. *)
Theorem getAttachedDevicePath_unowned (devices : list Hid.t) (known : list string) :
  (getAttachedDevicePath devices known ≠ "" →
     (getAttachedDevicePath devices known ∉ known) ∧
     ∃ d, d ∈ devices ∧ Hid.path d = Some (getAttachedDevicePath devices known)) ∧
  (Forall (λ d, Hid.path_or_empty d ∈ known) devices →
     getAttachedDevicePath devices known = "").
Proof.
  split; [|apply getAttachedDevicePath_owned].
  unfold getAttachedDevicePath.
  destruct (find _ devices) as [d|] eqn:E; [|done]. simpl.
  apply find_Some_elem in E as [Hd Hinc].
  unfold includes in Hinc. apply bool_decide_eq_false in Hinc.
  unfold Hid.path_or_empty in Hinc.
  destruct (Hid.path d) as [p|] eqn:Ep; [|done]. simpl in *.
  intros _. split; [done|]. eauto.
Qed.

Lemma getAttachedDevicePath_unowned_witness :
  getAttachedDevicePath [dev_A; dev_nopath] ["/dev/A"] = "" ∧
  getAttachedDevicePath [dev_A; dev_B] ["/dev/A"] = "/dev/B" ∧
  ("/dev/B" ∉ ["/dev/A"]) ∧
  getAttachedDevicePath [dev_A] ["/dev/A"] = "".
Proof.
  destruct (getAttachedDevicePath_unowned [dev_A; dev_B] ["/dev/A"]) as [Hfound _].
  destruct (getAttachedDevicePath_unowned [dev_A] ["/dev/A"]) as [_ Hnone].
  assert (getAttachedDevicePath [dev_A; dev_B] ["/dev/A"] = "/dev/B") as Hb by reflexivity.
  rewrite Hb in Hfound. destruct Hfound as [Hout _]; [done|].
  split_and!; [reflexivity|reflexivity|exact Hout|].
  apply Hnone. by_evaluation.
Defined.

Lemma getDetachedSigner_pred usbDevice attachedDevices s signer :
  (Ledger.model (deref s signer) = DeviceModel.id usbDevice ∧
   some (λ device, Hid.path device = Some (Ledger.devicePath (deref s signer)))
     attachedDevices = false) ↔
  detached usbDevice attachedDevices s signer.
Proof. unfold detached. by rewrite some_false_iff. Qed.

(** [getDetachedSigner] answers the first registered handle of the event's
    model whose path is not enumerated, and nothing exactly when there is
    no such handle. *)
Theorem getDetachedSigner_first_missing
    (usbDevice : DeviceModel.t) (attachedDevices : list Hid.t) (s : State) :
  (∀ ledger,
     getDetachedSigner usbDevice attachedDevices s = Some ledger ↔
     ∃ pre post, knownSigners s = pre ++ ledger :: post ∧
       detached usbDevice attachedDevices s ledger ∧
       Forall (λ r, ¬ detached usbDevice attachedDevices s r) pre) ∧
  (getDetachedSigner usbDevice attachedDevices s = None ↔
   Forall (λ r, ¬ detached usbDevice attachedDevices s r) (knownSigners s)).
Proof.
  unfold getDetachedSigner. split.
  - intros ledger. rewrite find_Some_split.
    split; intros (pre & post & Hk & Hd & Hpre); exists pre, post;
      (split; [done|]); (split; [by apply getDetachedSigner_pred|]);
      (eapply Forall_impl; [exact Hpre|]); intros r Hr Hd';
      by apply Hr, getDetachedSigner_pred.
  - rewrite find_None_iff.
    split; intros Hall; (eapply Forall_impl; [exact Hall|]); intros r Hr Hd';
      by apply Hr, getDetachedSigner_pred.
Qed.

(** An attach that finds every enumerated device registered (or none
    enumerated) while no disconnection is pending is dropped: the adapter
    is unchanged, no handle is constructed, nothing is announced, and the
    error is logged. *)
Theorem attach_unresolved_is_dropped
    (usbDevice : DeviceModel.t) (devices : list Hid.t) (openOk : bool) (s : State) :
  Forall (λ d, Hid.path_or_empty d ∈ knownPaths s) devices →
  disconnections s = [] →
  handleAttachedDevice usbDevice devices openOk s = (s, [LogError]).
Proof.
  intros Hdev Hd. unfold handleAttachedDevice.
  by rewrite resolveDevicePath_unresolved by (by apply getAttachedDevicePath_owned || done).
Qed.

Lemma attach_unresolved_is_dropped_witness :
  let s := (run true [Attached nanoS [dev_A] true; Detached nanoS []]
              (constructor legacy_5)).1 in
  handleAttachedDevice nanoS [dev_A] true s = (s, [LogError]) ∧
  handleAttachedDevice nanoS [] true (constructor legacy_5) =
    (constructor legacy_5, [LogError]).
Proof.
  intros s. split.
  - apply (attach_unresolved_is_dropped nanoS [dev_A] true s); [by_evaluation|reflexivity].
  - apply (attach_unresolved_is_dropped nanoS [] true (constructor legacy_5));
      [apply Forall_nil_2|reflexivity].
Defined.

Lemma adds_app acts1 acts2 : adds (acts1 ++ acts2) = adds acts1 ++ adds acts2.
Proof. apply omap_app. Qed.

Lemma adds_open ledger (openOk : bool) :
  adds ([CallOpen ledger] ++ (if openOk then [CallConnect ledger] else [])) = [].
Proof. by destruct openOk. Qed.

Lemma no_removal_open ledger (openOk : bool) :
  Forall (λ a, is_removal a = false)
    ([CallOpen ledger] ++ (if openOk then [CallConnect ledger] else [])).
Proof. destruct openOk; repeat constructor. Qed.

(** Lines 96-127 either reuse a registered handle or construct, announce
    and register one. *)
Lemma attachAtPath_outcome usbDevice p openOk s :
  let s' := (attachAtPath usbDevice p openOk s).1 in
  let acts := (attachAtPath usbDevice p openOk s).2 in
  (knownSigners s' = knownSigners s ∧ length (ledgers s') = length (ledgers s) ∧
   ∃ ledger, acts = [CallOpen ledger] ++ (if openOk then [CallConnect ledger] else [])) ∨
  (knownSigners s' = knownSigners s ++ [length (ledgers s)] ∧
   length (ledgers s') = S (length (ledgers s)) ∧
   acts = [EmitAdd (length (ledgers s)); CallOpen (length (ledgers s))] ++
          (if openOk then [CallConnect (length (ledgers s))] else [])).
Proof.
  unfold attachAtPath. case_decide; simpl.
  - left. split_and!; [done| |eauto].
    unfold updateDerivation. simpl. by rewrite length_insert.
  - right. split_and!; [done| |done].
    unfold updateDerivation. simpl. rewrite length_insert, length_app. simpl. lia.
Qed.

(** The three ways an attach can end. *)
Lemma handleAttachedDevice_outcome usbDevice devices openOk s :
  let s' := (handleAttachedDevice usbDevice devices openOk s).1 in
  let acts := (handleAttachedDevice usbDevice devices openOk s).2 in
  (s' = s ∧ acts = [LogError]) ∨
  (knownSigners s' = knownSigners s ∧ length (ledgers s') = length (ledgers s) ∧
   ∃ ledger, acts = [CallOpen ledger] ++ (if openOk then [CallConnect ledger] else [])) ∨
  (knownSigners s' = knownSigners s ++ [length (ledgers s)] ∧
   length (ledgers s') = S (length (ledgers s)) ∧
   acts = [EmitAdd (length (ledgers s)); CallOpen (length (ledgers s))] ++
          (if openOk then [CallConnect (length (ledgers s))] else [])).
Proof.
  unfold handleAttachedDevice.
  destruct (resolveDevicePath devices s) as [[p s1]|] eqn:E; simpl; [|by left].
  apply resolveDevicePath_frame in E as (Hl & Hk & _).
  rewrite <-Hl, <-Hk. right. apply attachAtPath_outcome.
Qed.

(** An attach never takes a handle out of the registry and never closes
    one: the registry after it is the registry before it followed by the
    handles it announced with [add], of which there is at most one, and
    the announced handle is the one just constructed. *)
Theorem attach_only_appends
    (usbDevice : DeviceModel.t) (devices : list Hid.t) (openOk : bool) (s : State) :
  let s' := (handleAttachedDevice usbDevice devices openOk s).1 in
  let acts := (handleAttachedDevice usbDevice devices openOk s).2 in
  knownSigners s' = knownSigners s ++ adds acts ∧
  adds acts = seq (length (ledgers s)) (length (ledgers s') - length (ledgers s)) ∧
  length (ledgers s') - length (ledgers s) ≤ 1 ∧
  length (ledgers s) ≤ length (ledgers s') ∧
  Forall (λ a, is_removal a = false) acts.
Proof.
  cbv zeta.
  destruct (handleAttachedDevice_outcome usbDevice devices openOk s)
    as [(-> & ->)|[(-> & -> & ledger & ->)|(-> & -> & ->)]].
  - rewrite app_nil_r, Nat.sub_diag. split_and!; [done|done|lia|lia|].
    by repeat constructor.
  - rewrite adds_open, app_nil_r, Nat.sub_diag.
    split_and!; [done|done|lia|lia|apply no_removal_open].
  - change (adds _) with (length (ledgers s) :: adds ([CallOpen (length (ledgers s))] ++
      (if openOk then [CallConnect (length (ledgers s))] else []))).
    rewrite adds_open.
    replace (S (length (ledgers s)) - length (ledgers s)) with 1 by lia.
    split_and!; [done|done|lia|lia|].
    apply Forall_cons. split; [done|]. apply (no_removal_open _ openOk).
Qed.

(** At attach time the handle that is opened, new or reused, is registered
    and carries the effective configuration of the store: the scheme of the
    store, and its live account limit under the live scheme, 0 under any
    other. *)
Theorem attach_applies_effective_config
    (usbDevice : DeviceModel.t) (devices : list Hid.t) (openOk : bool) (s : State) :
  wf s →
  (handleAttachedDevice usbDevice devices openOk s).2 ≠ [LogError] →
  let s' := (handleAttachedDevice usbDevice devices openOk s).1 in
  ∃ ledger,
    CallOpen ledger ∈ (handleAttachedDevice usbDevice devices openOk s).2 ∧
    ledger ∈ knownSigners s' ∧
    config (deref s' ledger) = effective (store s) ∧
    (Ledger.derivation (deref s' ledger) ≠ Derivation.live →
     Ledger.accountLimit (deref s' ledger) = 0%Z).
Proof.
  intros Hwf. unfold handleAttachedDevice.
  destruct (resolveDevicePath devices s) as [[p s1]|] eqn:E; [|done].
  intros _. simpl.
  apply resolveDevicePath_frame in E as (Hl & Hk & _ & _ & Hst & _).
  assert (wf s1) as Hwf1 by by apply (wf_same_registry s).
  rewrite <-Hst.
  assert (∃ ledger, CallOpen ledger ∈ (attachAtPath usbDevice p openOk s1).2 ∧
            ledger ∈ knownSigners (attachAtPath usbDevice p openOk s1).1 ∧
            config (deref (attachAtPath usbDevice p openOk s1).1 ledger) =
              effective (store s1)) as (ledger & Hopen & Hin & Hc).
  { destruct (decide (p ∈ knownPaths s1)) as [Hp|Hp].
    - apply list_elem_of_fmap in Hp as (ledger & -> & Hin).
      rewrite (attachAtPath_existing _ _ _ _ ledger) by done. simpl.
      exists ledger. split_and!; [apply list_elem_of_here|done|].
      rewrite deref_updateDerivation, decide_True; [done|].
      split; [done|]. pose proof (wf_refs _ Hwf1) as Hr.
      rewrite Forall_forall in Hr. by apply Hr.
    - rewrite attachAtPath_new by done. simpl.
      exists (length (ledgers s1)).
      split_and!; [apply list_elem_of_further, list_elem_of_here| |].
      + apply elem_of_app. right. apply list_elem_of_here.
      + rewrite deref_updateDerivation, decide_True; [done|].
        split; [done|]. simpl. rewrite length_app. simpl. lia. }
  exists ledger. split_and!; [done..|].
  intros Hnl. unfold config, effective in Hc. injection Hc as Hd Ha.
  rewrite Ha. rewrite decide_False; [done|]. by rewrite <-Hd.
Qed.

Lemma attach_applies_effective_config_witness :
  let s := (run false [Attached nanoS [dev_A] true; StoreChanged standard_5]
              (constructor live_20)).1 in
  let s' := (handleAttachedDevice nanoS [dev_A; dev_B] true s).1 in
  config (deref s 0) = ("live", 20%Z) ∧
  ∃ ledger,
    CallOpen ledger ∈ (handleAttachedDevice nanoS [dev_A; dev_B] true s).2 ∧
    ledger ∈ knownSigners s' ∧
    config (deref s' ledger) = effective standard_5 ∧
    (Ledger.derivation (deref s' ledger) ≠ Derivation.live →
     Ledger.accountLimit (deref s' ledger) = 0%Z).
Proof.
  intros s s'. split; [reflexivity|].
  apply (attach_applies_effective_config nanoS [dev_A; dev_B] true s).
  - apply run_wf, constructor_wf.
  - vm_compute. discriminate.
Defined.

(** On either platform a detach leaves the registry, the handles and the
    store as they are and closes nothing: it calls [disconnect()] on the
    handle [getDetachedSigner] answers and on no other, and when no
    registered handle of the event's model is missing from the enumeration
    it does nothing at all. *)
Theorem detach_keeps_registry
    (w : bool) (usbDevice : DeviceModel.t) (attachedDevices : list Hid.t) (s : State) :
  let s' := (handleDetachedDevice w usbDevice attachedDevices s).1 in
  let acts := (handleDetachedDevice w usbDevice attachedDevices s).2 in
  ledgers s' = ledgers s ∧ knownSigners s' = knownSigners s ∧ store s' = store s ∧
  (∀ ledger, getDetachedSigner usbDevice attachedDevices s = Some ledger →
     acts = [CallDisconnect ledger] ∧ ledger ∈ knownSigners s ∧
     detached usbDevice attachedDevices s ledger) ∧
  (Forall (λ r, ¬ detached usbDevice attachedDevices s r) (knownSigners s) →
     handleDetachedDevice w usbDevice attachedDevices s = (s, [])).
Proof.
  unfold handleDetachedDevice.
  destruct (getDetachedSigner usbDevice attachedDevices s) as [ledger|] eqn:E.
  - pose proof (getDetachedSigner_known _ _ _ _ E) as Hin.
    assert (detached usbDevice attachedDevices s ledger) as Hd.
    { unfold getDetachedSigner in E. apply find_Some_elem in E as [_ Hd].
      by apply getDetachedSigner_pred. }
    destruct w; simpl; (split_and!; [done..| |]).
    + by intros ? [= <-].
    + intros Hall. rewrite Forall_forall in Hall. by destruct (Hall ledger).
    + by intros ? [= <-].
    + intros Hall. rewrite Forall_forall in Hall. by destruct (Hall ledger).
  - simpl. split_and!; done.
Qed.

Lemma detach_keeps_registry_witness :
  let s := (run false [Attached nanoS [dev_A] true] (constructor legacy_5)).1 in
  handleDetachedDevice false nanoS [dev_A] s = (s, []) ∧
  handleDetachedDevice false (DeviceModel.Make "nanoX") [] s = (s, []) ∧
  (handleDetachedDevice false nanoS [] s).2 = [CallDisconnect 0] ∧
  knownSigners (handleDetachedDevice false nanoS [] s).1 = knownSigners s.
Proof.
  intros s.
  destruct (detach_keeps_registry false nanoS [dev_A] s) as (_ & _ & _ & _ & Hnone1).
  destruct (detach_keeps_registry false (DeviceModel.Make "nanoX") [] s)
    as (_ & _ & _ & _ & Hnone2).
  destruct (detach_keeps_registry false nanoS [] s) as (_ & Hk & _ & Hsome & _).
  assert (knownSigners s = [0]) as Hs by reflexivity.
  split_and!.
  - apply Hnone1. rewrite Hs. apply Forall_singleton. intros [_ Hd].
    apply (proj1 (Forall_singleton _ _)) in Hd. apply Hd. reflexivity.
  - apply Hnone2. rewrite Hs. apply Forall_singleton. intros [Hm _]. discriminate Hm.
  - by destruct (Hsome 0 eq_refl) as [Hacts _].
  - exact Hk.
Defined.

(** ** What a whole run announces *)

Lemma step_adds w e s :
  adds (step w e s).2 =
    seq (length (ledgers s)) (length (ledgers (step w e s).1) - length (ledgers s)) ∧
  length (ledgers s) ≤ length (ledgers (step w e s).1).
Proof.
  destruct e; simpl.
  - destruct (handleAttachedDevice_outcome usbDevice devices openOk s)
      as [(-> & ->)|[(_ & -> & ledger & ->)|(_ & -> & ->)]].
    + by rewrite Nat.sub_diag.
    + by rewrite adds_open, Nat.sub_diag.
    + replace (S (length (ledgers s)) - length (ledgers s)) with 1 by lia.
      split; [|lia].
      change (adds _) with (length (ledgers s) :: adds ([CallOpen (length (ledgers s))] ++
        (if openOk then [CallConnect (length (ledgers s))] else []))).
      by rewrite adds_open.
  - unfold handleDetachedDevice.
    destruct (getDetachedSigner usbDevice devices s); simpl; [|by rewrite Nat.sub_diag].
    destruct w; simpl; by rewrite Nat.sub_diag.
  - unfold fireTimeout. destruct (timeouts s !! t) as [[ledger|]|]; simpl;
      by rewrite Nat.sub_diag.
  - unfold storeChanged.
    pose proof (foldl_notify_config_only (observers (with_store st s)) (with_store st s) [])
      as Hco.
    rewrite (co_length _ _ Hco). simpl. rewrite Nat.sub_diag. split; [|done].
    assert (∀ os s0 acts0, adds acts0 = [] → adds (foldl notify (s0, acts0) os).2 = [])
      as Hnotify.
    { induction os as [|o os IH]; intros s0 acts0 H0; [done|]. simpl.
      destruct o; simpl; [|by apply IH].
      destruct (observerCallback s0) as [s1 acts1] eqn:E1. apply IH.
      rewrite adds_app, H0. simpl.
      assert (acts1 = (observerCallback s0).2) as -> by by rewrite E1.
      unfold observerCallback.
      assert (∀ k d a s2 acts2, adds acts2 = [] →
                adds (foldl (observe_ledger d a) (s2, acts2) k).2 = []) as Hobs.
      { induction k as [|r k IHk]; intros d a s2 acts2 H2; [done|]. simpl.
        unfold observe_ledger at 2. case_decide; apply IHk; [|done].
        by rewrite adds_app, H2. }
      by apply Hobs. }
    by apply Hnotify.
  - by rewrite Nat.sub_diag.
  - unfold close. destruct (observer s); simpl; by rewrite Nat.sub_diag.
Qed.

(** Every handle ever constructed is announced with [add] exactly once,
    by the event that constructs it and in construction order: the [add]
    notifications of a run are those of the handles constructed during the
    run, each once; from a fresh adapter they are all handles there are. *)
Theorem add_once_per_handle (w : bool) (es : list Event) (s : State) :
  let s' := (run w es s).1 in
  adds (run w es s).2 = seq (length (ledgers s)) (length (ledgers s') - length (ledgers s)) ∧
  length (ledgers s) ≤ length (ledgers s') ∧
  NoDup (adds (run w es s).2) ∧
  (ledgers s = [] → adds (run w es s).2 = seq 0 (length (ledgers s'))).
Proof.
  assert (adds (run w es s).2 =
            seq (length (ledgers s)) (length (ledgers (run w es s).1) - length (ledgers s)) ∧
          length (ledgers s) ≤ length (ledgers (run w es s).1)) as [Hadds Hle].
  { induction es as [|e es [IH1 IH2]] using rev_ind.
    - simpl. by rewrite Nat.sub_diag.
    - rewrite run_snoc. simpl.
      destruct (step_adds w e (run w es s).1) as [Hs1 Hs2].
      split; [|lia].
      rewrite adds_app, IH1, Hs1.
      set (n0 := length (ledgers s)) in *.
      set (n1 := length (ledgers (run w es s).1)) in *.
      set (n2 := length (ledgers (step w e (run w es s).1).1)) in *.
      replace (n2 - n0) with ((n1 - n0) + (n2 - n1)) by lia.
      rewrite seq_app. do 2 f_equal. lia. }
  intros s'. split_and!; [done|done| |].
  - rewrite Hadds. apply NoDup_seq.
  - intros Hnil. rewrite Hadds, Hnil. simpl. by rewrite Nat.sub_0_r.
Qed.

(** ** Windows: nothing is tracked *)

Lemma step_untracked e s :
  disconnections s = [] → timeouts s = [] →
  disconnections (step true e s).1 = [] ∧ timeouts (step true e s).1 = [] ∧
  knownSigners s `prefix_of` knownSigners (step true e s).1 ∧
  Forall (λ a, is_removal a = false) (step true e s).2.
Proof.
  intros Hd Ht. destruct e; simpl.
  - assert (knownSigners s `prefix_of`
              knownSigners (handleAttachedDevice usbDevice devices openOk s).1 ∧
            Forall (λ a, is_removal a = false)
              (handleAttachedDevice usbDevice devices openOk s).2) as [Hk Hacts].
    { destruct (handleAttachedDevice_outcome usbDevice devices openOk s)
        as [(-> & ->)|[(-> & _ & ledger & ->)|(-> & _ & ->)]].
      - split; [done|by repeat constructor].
      - split; [done|apply no_removal_open].
      - split; [by eexists|]. apply Forall_cons. split; [done|].
        apply (no_removal_open _ openOk). }
    split_and!; [| |done|done].
    + unfold handleAttachedDevice, resolveDevicePath. rewrite Hd. case_decide; [done|].
      by destruct (attachAtPath_frame usbDevice
        (getAttachedDevicePath devices (knownPaths s)) openOk s) as (-> & _).
    + unfold handleAttachedDevice, resolveDevicePath. rewrite Hd. case_decide; [done|].
      by destruct (attachAtPath_frame usbDevice
        (getAttachedDevicePath devices (knownPaths s)) openOk s) as (_ & -> & _).
  - unfold handleDetachedDevice.
    destruct (getDetachedSigner usbDevice devices s); simpl;
      (split_and!; [done|done|done|by repeat constructor]).
  - unfold fireTimeout. rewrite Ht. simpl. split_and!; done.
  - unfold storeChanged.
    pose proof (foldl_notify_config_only (observers (with_store st s)) (with_store st s) [])
      as Hco.
    rewrite (co_disconnections _ _ Hco), (co_timeouts _ _ Hco), (co_known _ _ Hco).
    split_and!; [done..|].
    assert (∀ os s0 acts0, Forall (λ a, is_removal a = false) acts0 →
              Forall (λ a, is_removal a = false) (foldl notify (s0, acts0) os).2) as Hnotify.
    { induction os as [|o os IH]; intros s0 acts0 H0; [done|]. simpl.
      destruct o; simpl; [|by apply IH].
      destruct (observerCallback s0) as [s1 acts1] eqn:E1. apply IH.
      apply Forall_app. split; [done|].
      assert (acts1 = (observerCallback s0).2) as -> by by rewrite E1.
      unfold observerCallback.
      assert (∀ k d a s2 acts2, Forall (λ a, is_removal a = false) acts2 →
                Forall (λ a, is_removal a = false)
                  (foldl (observe_ledger d a) (s2, acts2) k).2) as Hobs.
      { induction k as [|r k IHk]; intros d a s2 acts2 H2; [done|]. simpl.
        unfold observe_ledger at 2. case_decide; apply IHk; [|done].
        apply Forall_app. split; [done|]. by repeat constructor. }
      by apply Hobs. }
    by apply Hnotify.
  - split_and!; [done|done|done|by repeat constructor].
  - unfold close. destruct (observer s); simpl;
      (split_and!; [done|done|done|by repeat constructor]).
Qed.

(** On Windows ([IS_WINDOWS] true) no disconnection is ever recorded and
    no timer is ever started: after any events from a fresh adapter both
    lists are empty, and through any further events the registry only
    grows at its end, no [close()] is called on a handle and no [remove]
    is emitted. *)
Theorem windows_never_tracks (st : Store.t) (es es' : list Event) :
  let s := (run true es (constructor st)).1 in
  let s' := (run true es' s).1 in
  disconnections s = [] ∧ timeouts s = [] ∧
  knownSigners s `prefix_of` knownSigners s' ∧
  Forall (λ a, is_removal a = false) (run true es' s).2.
Proof.
  assert (∀ es0 s0, disconnections s0 = [] → timeouts s0 = [] →
            disconnections (run true es0 s0).1 = [] ∧ timeouts (run true es0 s0).1 = [] ∧
            knownSigners s0 `prefix_of` knownSigners (run true es0 s0).1 ∧
            Forall (λ a, is_removal a = false) (run true es0 s0).2) as Hrun.
  { induction es0 as [|e es0 IH] using rev_ind; intros s0 Hd Ht; [done|].
    destruct (IH s0 Hd Ht) as (Hd1 & Ht1 & Hp1 & Ha1).
    rewrite run_snoc. simpl.
    destruct (step_untracked e (run true es0 s0).1 Hd1 Ht1) as (Hd2 & Ht2 & Hp2 & Ha2).
    split_and!; [done|done|by etrans|by apply Forall_app]. }
  intros s s'.
  destruct (Hrun es (constructor st)) as (Hd & Ht & _); [done..|].
  destruct (Hrun es' s Hd Ht) as (_ & _ & Hp & Ha). done.
Qed.

(** ** No empty path *)

Lemma knownPaths_alloc s p m :
  Forall (λ r, r < length (ledgers s)) (knownSigners s) →
  knownPaths (with_knownSigners (knownSigners s ++ [length (ledgers s)])
                (with_ledgers (ledgers s ++ [Ledger.new p m (length (ledgers s))]) s)) =
  knownPaths s ++ [p].
Proof.
  intros Hr. unfold knownPaths, deref. simpl. rewrite fmap_app.
  rewrite (paths_alloc _ _ _ Hr). simpl.
  by rewrite lookup_total_app_r, Nat.sub_diag by lia.
Qed.

Lemma Forall_sublist_of_helper {A} (P : A → Prop) (l k : list A) :
  l `sublist_of` k → Forall P k → Forall P l.
Proof.
  intros Hsub Hk. rewrite Forall_forall in Hk |- *.
  intros x Hx. apply Hk. by eapply elem_of_sublist.
Qed.

Lemma attachAtPath_paths_nonempty usbDevice p openOk s :
  wf s → p ≠ "" → paths_nonempty s →
  paths_nonempty (attachAtPath usbDevice p openOk s).1.
Proof.
  intros Hwf Hp [Hk Hd]. unfold paths_nonempty, pendingPaths.
  destruct (attachAtPath_frame usbDevice p openOk s) as (-> & _).
  split; [|done].
  destruct (decide (p ∈ knownPaths s)) as [Hin|Hout].
  - apply list_elem_of_fmap in Hin as (ledger & -> & Hin).
    rewrite (attachAtPath_existing _ _ _ _ ledger) by done. simpl.
    by rewrite (config_only_knownPaths _ _ (updateDerivation_config_only _ _ _ _)).
  - rewrite attachAtPath_new by done. simpl.
    rewrite (config_only_knownPaths _ _ (updateDerivation_config_only _ _ _ _)).
    rewrite knownPaths_alloc by apply Hwf.
    apply Forall_app. split; [done|]. by apply Forall_singleton.
Qed.

Lemma step_paths_nonempty w e s :
  wf s → paths_nonempty s → paths_nonempty (step w e s).1.
Proof.
  intros Hwf [Hk Hd]. destruct e; simpl.
  - unfold handleAttachedDevice, resolveDevicePath.
    case_decide as Hp.
    + destruct (pop_cases (disconnections s)) as [[_ ->]|(ds & pending & Hds & ->)]; [done|].
      unfold pendingPaths in Hd. rewrite Hds, fmap_app in Hd.
      apply Forall_app in Hd as [Hd1 Hd2]. apply (proj1 (Forall_singleton _ _)) in Hd2.
      apply attachAtPath_paths_nonempty; [by apply (wf_same_registry s)|done|].
      split; [done|]. by unfold pendingPaths.
    + by apply attachAtPath_paths_nonempty.
  - unfold handleDetachedDevice.
    destruct (getDetachedSigner usbDevice devices s) as [ledger|] eqn:E; [|done].
    destruct w; simpl; [done|]. split; [done|].
    unfold pendingPaths. simpl. rewrite fmap_app. apply Forall_app. split; [done|].
    apply Forall_singleton. simpl.
    rewrite Forall_forall in Hk. apply Hk, elem_of_knownPaths.
    by eapply getDetachedSigner_known.
  - unfold fireTimeout. destruct (timeouts s !! t) as [[ledger|]|]; [|done..].
    unfold disconnectionTimeout, paths_nonempty, knownPaths, pendingPaths, deref. simpl.
    split.
    + eapply Forall_sublist_of_helper; [|exact Hk]. apply fmap_sublist, splice_sublist.
    + eapply Forall_sublist_of_helper; [|exact Hd]. apply fmap_sublist, splice_sublist.
  - unfold storeChanged.
    pose proof (foldl_notify_config_only (observers (with_store st s)) (with_store st s) [])
      as Hco.
    unfold paths_nonempty, pendingPaths.
    by rewrite (config_only_knownPaths _ _ Hco), (co_disconnections _ _ Hco).
  - done.
  - unfold close. by destruct (observer s).
Qed.

(** After any events from a fresh adapter, on either platform, no
    registered handle and no pending disconnection has the empty path, the
    value [handleAttachedDevice] reads as "no path found". *)
Theorem registered_paths_nonempty (w : bool) (st : Store.t) (es : list Event) :
  paths_nonempty (run w es (constructor st)).1.
Proof.
  assert (wf (run w es (constructor st)).1 ∧ paths_nonempty (run w es (constructor st)).1)
    as [_ H]; [|done].
  apply (run_invariant (λ s, wf s ∧ paths_nonempty s) w).
  - intros e s [Hwf Hp]. split; [by apply step_wf|by apply step_paths_nonempty].
  - split; [apply constructor_wf|]. split; apply Forall_nil_2.
Qed.

(** ** Timers *)

(** A timer fires at most once: firing it again does nothing. *)
Lemma fireTimeout_once (t : Timeout) (s : State) :
  fireTimeout t (fireTimeout t s).1 = ((fireTimeout t s).1, []).
Proof.
  unfold fireTimeout at 2 3.
  destruct (timeouts s !! t) as [[ledger|]|] eqn:E.
  - unfold fireTimeout, disconnectionTimeout. simpl.
    by rewrite list_lookup_insert_eq by by eapply lookup_lt_Some.
  - simpl. unfold fireTimeout. by rewrite E.
  - simpl. unfold fireTimeout. by rewrite E.
Qed.

(** Once an attach has taken a pending disconnection, the timer of that
    disconnection is cleared: if it is fired afterwards nothing happens. *)
Lemma claimed_disconnection_never_expires
    (usbDevice : DeviceModel.t) (devices : list Hid.t) (openOk : bool)
    (s : State) (ds : list Disconnection.t) (pending : Disconnection.t) :
  getAttachedDevicePath devices (knownPaths s) = "" →
  disconnections s = ds ++ [pending] →
  let s' := (handleAttachedDevice usbDevice devices openOk s).1 in
  disconnections s' = ds ∧
  fireTimeout (Disconnection.timeout pending) s' = (s', []).
Proof.
  intros Hp Hd. unfold handleAttachedDevice.
  rewrite (resolveDevicePath_claim _ _ ds pending) by done.
  set (s1 := with_timeouts _ _).
  destruct (attachAtPath_frame usbDevice (Disconnection.devicePath pending) openOk s1)
    as (Hdisc & Htime & _).
  split; [by rewrite Hdisc|].
  unfold fireTimeout. rewrite Htime. simpl.
  destruct (decide (Disconnection.timeout pending < length (timeouts s))).
  - by rewrite list_lookup_insert_eq.
  - rewrite list_insert_ge by lia. by rewrite lookup_ge_None_2 by lia.
Qed.

Lemma claimed_disconnection_never_expires_witness :
  let s := (run false [Attached nanoS [dev_A] true; Detached nanoS []]
              (constructor legacy_5)).1 in
  let s' := (handleAttachedDevice nanoS [dev_A] true s).1 in
  timeouts s = [Some 0] ∧
  disconnections s' = [] ∧ fireTimeout 0 s' = (s', []) ∧ knownSigners s' = [0].
Proof.
  intros s s'.
  destruct (claimed_disconnection_never_expires nanoS [dev_A] true s []
              (Disconnection.Make "/dev/A" 0)) as [Hd Hf]; [reflexivity..|].
  split_and!; [reflexivity|exact Hd|exact Hf|reflexivity].
Defined.

Lemma delete_snoc_last {A} (l : list A) x : delete (length l) (l ++ [x]) = l.
Proof.
  rewrite delete_take_drop, take_app_length, drop_ge by (rewrite length_app; simpl; lia).
  by rewrite app_nil_r.
Qed.

(** A detach followed by the expiry of its timer, where disconnections are
    tracked and the handle's path had no pending disconnection: the handle
    is taken out of the registry, the other handles keep their order, the
    pending disconnections are again what they were before the detach, and
    over the two steps the handle is disconnected, closed and reported
    removed, in that order. *)
Theorem detach_then_expiry
    (usbDevice : DeviceModel.t) (gone : list Hid.t) (s : State) (ledger : ref) :
  wf s →
  getDetachedSigner usbDevice gone s = Some ledger →
  Ledger.devicePath (deref s ledger) ∉ pendingPaths s →
  let s1 := (handleDetachedDevice false usbDevice gone s).1 in
  let s2 := (fireTimeout (length (timeouts s)) s1).1 in
  (∃ k1 k2, knownSigners s = k1 ++ ledger :: k2 ∧ knownSigners s2 = k1 ++ k2) ∧
  disconnections s2 = disconnections s ∧
  ledgers s2 = ledgers s ∧
  (handleDetachedDevice false usbDevice gone s).2 ++
    (fireTimeout (length (timeouts s)) s1).2 =
    [CallDisconnect ledger; CallClose ledger; EmitRemove (Ledger.id (deref s ledger))].
Proof.
  intros Hwf Hres Hfresh s1 s2. subst s2 s1.
  pose proof (getDetachedSigner_known _ _ _ _ Hres) as Hin.
  rewrite (handleDetachedDevice_tracked _ _ _ _ Hres). simpl.
  unfold fireTimeout. simpl.
  rewrite lookup_app_r, Nat.sub_diag by lia. simpl.
  unfold disconnectionTimeout. simpl.
  split_and!; [| |done|done].
  - apply list_elem_of_split in Hin as (k1 & k2 & Hk).
    exists k1, k2. split; [done|]. rewrite Hk.
    apply splice_indexOf_present.
    assert (NoDup (knownSigners s)) as Hnd by (eapply NoDup_fmap_1; apply Hwf).
    rewrite Hk in Hnd. apply NoDup_app in Hnd as (_ & Hdisj & _).
    intros Hk1. apply (Hdisj _ Hk1), list_elem_of_here.
  - unfold deref at 1. simpl. fold (deref s ledger).
    rewrite (findIndex_Some _ _ (length (disconnections s))
               (Disconnection.Make (Ledger.devicePath (deref s ledger)) (length (timeouts s)))).
    + by rewrite splice_index, delete_snoc_last.
    + by apply list_lookup_middle.
    + done.
    + intros j y Hj Hlt Hy. rewrite lookup_app_l in Hj by done.
      apply Hfresh. unfold pendingPaths. rewrite <-Hy.
      apply list_elem_of_fmap_2. by eapply list_elem_of_lookup_2.
Qed.

Lemma detach_then_expiry_witness :
  let s := (run false [Attached nanoS [dev_A] true; Attached nanoS [dev_A; dev_B] true]
              (constructor legacy_5)).1 in
  let s1 := (handleDetachedDevice false nanoS [dev_B] s).1 in
  let s2 := (fireTimeout (length (timeouts s)) s1).1 in
  getDetachedSigner nanoS [dev_B] s = Some 0 ∧
  (∃ k1 k2, knownSigners s = k1 ++ 0 :: k2 ∧ knownSigners s2 = k1 ++ k2) ∧
  disconnections s2 = disconnections s ∧
  ledgers s2 = ledgers s ∧
  (handleDetachedDevice false nanoS [dev_B] s).2 ++
    (fireTimeout (length (timeouts s)) s1).2 =
    [CallDisconnect 0; CallClose 0; EmitRemove (Ledger.id (deref s 0))].
Proof.
  intros s s1 s2. split; [reflexivity|].
  apply (detach_then_expiry nanoS [dev_B] s 0).
  - apply run_wf, constructor_wf.
  - reflexivity.
  - apply not_elem_of_nil.
Defined.

(** ** updateDerivation at its two call sites *)

(** The call of the observer, [updateDerivation(ledger, derivation,
    liveAccountLimit)] with the two values of the store, and the call at
    attach time, [updateDerivation(ledger)], leave a handle in the same
    state exactly when the scheme of the store is the live one or its live
    account limit is 0.  Otherwise the observer's call stores the limit
    where the attach-time call stores 0. *)
Theorem updateDerivation_call_sites (ledger : ref) (s : State) :
  ledger < length (ledgers s) →
  let d := Store.derivation (store s) in
  let a := Store.liveAccountLimit (store s) in
  (updateDerivation ledger (Some d) (Some a) s = updateDerivation ledger None None s ↔
   d = Derivation.live ∨ a = 0%Z) ∧
  config (deref (updateDerivation ledger None None s) ledger) = effective (store s) ∧
  config (deref (updateDerivation ledger (Some d) (Some a) s) ledger) = (d, a).
Proof.
  intros Hlt d a. subst d a.
  assert (config (deref (updateDerivation ledger None None s) ledger) = effective (store s))
    as Hattach.
  { rewrite deref_updateDerivation, decide_True by done. done. }
  assert (config (deref (updateDerivation ledger (Some (Store.derivation (store s)))
                           (Some (Store.liveAccountLimit (store s))) s) ledger) =
          (Store.derivation (store s), Store.liveAccountLimit (store s))) as Hobs.
  { rewrite deref_updateDerivation, decide_True by done.
    unfold config. simpl. f_equal.
    case_decide as H0; [|done]. rewrite H0. by case_decide. }
  split_and!; [|done..].
  split.
  - intros Heq. rewrite Heq, Hattach in Hobs.
    unfold effective in Hobs. injection Hobs as Ha.
    case_decide; [by left|by right].
  - intros Hor. unfold updateDerivation. simpl. do 3 f_equal.
    destruct Hor as [Hlive|H0].
    + rewrite (decide_True (P := Store.derivation (store s) = Derivation.live)) by done.
      by case_decide.
    + by rewrite H0.
Qed.

Lemma updateDerivation_call_sites_witness :
  let s := (run false [Attached nanoS [dev_A] true] (constructor standard_5)).1 in
  (updateDerivation 0 (Some "standard") (Some 5%Z) s = updateDerivation 0 None None s ↔
   "standard" = Derivation.live ∨ 5%Z = 0%Z) ∧
  config (deref (updateDerivation 0 None None s) 0) = ("standard", 0%Z) ∧
  config (deref (updateDerivation 0 (Some "standard") (Some 5%Z) s) 0) = ("standard", 5%Z).
Proof.
  intros s.
  apply (updateDerivation_call_sites 0 s). vm_compute. lia.
Defined.

(** ** The observer and unregistered handles *)

Lemma foldl_observe_unregistered d a k s acts r :
  r ∉ k → deref (foldl (observe_ledger d a) (s, acts) k).1 r = deref s r.
Proof.
  revert s acts. induction k as [|x k IH]; intros s acts Hr; [done|].
  apply not_elem_of_cons in Hr as [Hne Hr]. simpl.
  unfold observe_ledger at 2. case_decide.
  - rewrite IH by done. rewrite deref_updateDerivation.
    by rewrite decide_False by (by intros [? _]).
  - by apply IH.
Qed.

(** The callback calls [deriveAddresses] on registered handles and makes
    no other call. *)
Lemma observerCallback_calls s a :
  a ∈ (observerCallback s).2 → ∃ r, a = CallDeriveAddresses r ∧ r ∈ knownSigners s.
Proof.
  unfold observerCallback.
  assert (∀ k d l s0 acts0 x,
            x ∈ (foldl (observe_ledger d l) (s0, acts0) k).2 →
            x ∈ acts0 ∨ ∃ r, x = CallDeriveAddresses r ∧ r ∈ k) as Hobs.
  { induction k as [|y k IH]; intros d l s0 acts0 x Hin; [by left|]. simpl in Hin.
    unfold observe_ledger at 2 in Hin. case_decide.
    - apply IH in Hin as [[Hin|Hin%list_elem_of_singleton]%elem_of_app|(r & -> & Hr)].
      + by left.
      + right. exists y. split; [done|apply list_elem_of_here].
      + right. exists r. split; [done|by apply list_elem_of_further].
    - apply IH in Hin as [Hin|(r & -> & Hr)]; [by left|].
      right. exists r. split; [done|by apply list_elem_of_further]. }
  intros Hin. apply Hobs in Hin as [Hin|Hin]; [|done]. by apply not_elem_of_nil in Hin.
Qed.

(** A notification of the store touches registered handles only, and of
    those nothing but [derivation] and [accountLimit]: the registry, the
    pending disconnections, the timers and every handle's [id],
    [devicePath] and [model] are as before, a handle that is not in the
    registry (one removed at expiry) is left exactly as it was, and
    [deriveAddresses] is called on registered handles only. *)
Theorem observer_touches_registered_only (s : State) :
  let s' := (observerCallback s).1 in
  config_only s s' ∧
  (∀ r, r ∉ knownSigners s → deref s' r = deref s r) ∧
  (∀ r, CallDeriveAddresses r ∈ (observerCallback s).2 → r ∈ knownSigners s) ∧
  (∀ a, a ∈ (observerCallback s).2 → ∃ r, a = CallDeriveAddresses r).
Proof.
  split_and!.
  - apply observerCallback_config_only.
  - intros r Hr. unfold observerCallback. by apply foldl_observe_unregistered.
  - intros r Hin. by destruct (observerCallback_calls s _ Hin) as (r' & [= <-] & Hr).
  - intros a Hin. destruct (observerCallback_calls s _ Hin) as (r & -> & _). eauto.
Qed.

(** ** reload *)

(** [reload(signer)] never changes the adapter.  When no registered handle
    has the signer's path it calls nothing; otherwise it works on the one
    registered handle with that path: it disconnects it, then opens it if
    the disconnect succeeded, then connects it if the open succeeded, and
    emits nothing. *)
Theorem reload_acts_on_registered_handle
    (signer : Ledger.t) (disconnectOk openOk : bool) (s : State) :
  wf s →
  (reload signer disconnectOk openOk s).1 = s ∧
  (Ledger.devicePath signer ∉ knownPaths s →
     reload signer disconnectOk openOk s = (s, [])) ∧
  (∀ ledger, ledger ∈ knownSigners s →
     Ledger.devicePath (deref s ledger) = Ledger.devicePath signer →
     (reload signer disconnectOk openOk s).2 =
       [CallDisconnect ledger] ++
       (if disconnectOk
        then [CallOpen ledger] ++ (if openOk then [CallConnect ledger] else [])
        else [])).
Proof.
  intros Hwf. unfold reload.
  destruct (find _ (knownSigners s)) as [found|] eqn:E.
  - apply find_Some_elem in E as [Hin Hp]. split_and!; [done| |].
    + intros Hout. destruct Hout. rewrite <-Hp. by apply elem_of_knownPaths.
    + intros ledger Hl Hpl. simpl.
      assert (found = ledger) as ->; [|done].
      apply (NoDup_fmap_elem_inj (λ d, Ledger.devicePath (deref s d)) (knownSigners s));
        [apply Hwf|done|done|congruence].
  - apply find_None_iff in E. rewrite Forall_forall in E. split_and!; [done..|].
    intros ledger Hl Hpl. by destruct (E ledger).
Qed.

Lemma reload_acts_on_registered_handle_witness :
  let s := (run false [Attached nanoS [dev_A] true; Attached nanoS [dev_A; dev_B] true]
              (constructor legacy_5)).1 in
  (reload (deref s 1) true true s).2 = [CallDisconnect 1; CallOpen 1; CallConnect 1] ∧
  (reload (deref s 1) false true s).2 = [CallDisconnect 1] ∧
  reload (Ledger.new "/dev/C" "nanoS" 7) true true s = (s, []).
Proof.
  intros s.
  assert (wf s) as Hwf by apply run_wf, constructor_wf.
  destruct (reload_acts_on_registered_handle (deref s 1) true true s Hwf) as (_ & _ & H1).
  destruct (reload_acts_on_registered_handle (deref s 1) false true s Hwf) as (_ & _ & H2).
  destruct (reload_acts_on_registered_handle (Ledger.new "/dev/C" "nanoS" 7) true true s Hwf)
    as (_ & H3 & _).
  split_and!.
  - apply (H1 1); [by_evaluation|reflexivity].
  - apply (H2 1); [by_evaluation|reflexivity].
  - apply H3. by_evaluation.
Defined.

Lemma add_once_per_handle_witness :
  let r := run false
             [Attached nanoS [dev_A] true; Detached nanoS [];
              Attached nanoS [dev_A] true; Attached nanoS [dev_A; dev_B] true;
              Detached nanoS [dev_A]; TimeoutFired 1; Attached nanoS [dev_A; dev_B] true]
             (constructor legacy_5) in
  length (ledgers r.1) = 3 ∧ adds r.2 = [0; 1; 2] ∧ knownSigners r.1 = [0; 2].
Proof.
  intros r.
  destruct (add_once_per_handle false
              [Attached nanoS [dev_A] true; Detached nanoS [];
               Attached nanoS [dev_A] true; Attached nanoS [dev_A; dev_B] true;
               Detached nanoS [dev_A]; TimeoutFired 1; Attached nanoS [dev_A; dev_B] true]
              (constructor legacy_5)) as (_ & _ & _ & Hadds).
  split_and!; [reflexivity| |reflexivity].
  exact (Hadds eq_refl).
Defined.

(** ** Only expiry removes *)

Lemma observerCallback_no_removal s :
  Forall (λ a, is_removal a = false) (observerCallback s).2.
Proof.
  apply Forall_forall. intros a Ha.
  by destruct (observerCallback_calls s a Ha) as (r & -> & _).
Qed.

Lemma foldl_notify_no_removal os s acts :
  Forall (λ a, is_removal a = false) acts →
  Forall (λ a, is_removal a = false) (foldl notify (s, acts) os).2.
Proof.
  revert s acts. induction os as [|o os IH]; intros s acts Hacts; [done|]. simpl.
  destruct o; simpl; [|by apply IH].
  destruct (observerCallback s) as [s1 acts1] eqn:E. apply IH.
  apply Forall_app. split; [done|].
  assert (acts1 = (observerCallback s).2) as -> by by rewrite E.
  apply observerCallback_no_removal.
Qed.

(** On either platform a handle leaves the registry, is closed or is
    reported removed only when a removal timer fires: every other event
    (attach, detach, store change, open, close) keeps the registry as a
    prefix of the new one, calls no [close()] on a handle and emits no
    [remove]. *)
Theorem only_expiry_removes (w : bool) (e : Event) (s : State) :
  (∀ t, e ≠ TimeoutFired t) →
  knownSigners s `prefix_of` knownSigners (step w e s).1 ∧
  Forall (λ a, is_removal a = false) (step w e s).2.
Proof.
  intros He. destruct e; simpl.
  - destruct (handleAttachedDevice_outcome usbDevice devices openOk s)
      as [(-> & ->)|[(-> & _ & ledger & ->)|(-> & _ & ->)]].
    + split; [done|by repeat constructor].
    + split; [done|apply no_removal_open].
    + split; [by eexists|]. apply Forall_cons. split; [done|].
      apply (no_removal_open _ openOk).
  - unfold handleDetachedDevice.
    destruct (getDetachedSigner usbDevice devices s); [|done].
    destruct w; simpl; (split; [done|by repeat constructor]).
  - by destruct (He t).
  - unfold storeChanged.
    rewrite (co_known _ _ (foldl_notify_config_only _ _ _)).
    split; [done|]. by apply foldl_notify_no_removal.
  - split; [done|]. by repeat constructor.
  - unfold close. destruct (observer s); simpl; (split; [done|]); by repeat constructor.
Qed.

Lemma only_expiry_removes_witness :
  let s := (run false [Attached nanoS [dev_A] true] (constructor legacy_5)).1 in
  knownSigners s `prefix_of` knownSigners (step false (Detached nanoS []) s).1 ∧
  Forall (λ a, is_removal a = false) (step false (Detached nanoS []) s).2.
Proof.
  intros s. apply (only_expiry_removes false (Detached nanoS []) s).
  intros t. discriminate.
Defined.

(** ** Revisited claims *)


(** C6 at the failing input: two devices of the same model, /dev/A and
    /dev/B, are registered and both disappear; both detach events resolve
    to the handle of /dev/A, the first match of [find], so two timers hold
    it and none holds the handle of /dev/B.  When the two timers have
    fired, [close()] has run twice on the handle of /dev/A and never on
    the handle of /dev/B, which has left the registry all the same. *)
Lemma expiry_closes_one_handle_twice :
  let s := (run false
              [Attached nanoS [dev_A] true;
               Attached nanoS [dev_A; dev_B] true;
               Detached nanoS [];
               Detached nanoS []]
              (constructor legacy_5)).1 in
  let s1 := (fireTimeout 0 s).1 in
  let s2 := (fireTimeout 1 s1).1 in
  knownSigners s = [0; 1] ∧ knownPaths s = ["/dev/A"; "/dev/B"] ∧
  timeouts s = [Some 0; Some 0] ∧
  (fireTimeout 0 s).2 = [CallClose 0; EmitRemove 0] ∧ knownSigners s1 = [1] ∧
  (fireTimeout 1 s1).2 = [CallClose 0; EmitRemove 0] ∧ knownSigners s2 = [] ∧
  (CallClose 1 ∉ (fireTimeout 0 s).2 ++ (fireTimeout 1 s1).2) ∧
  timeouts s2 = [None; None].
Proof.
  intros s s1 s2.
  split_and!; try (vm_compute; reflexivity).
  by_evaluation.
Qed.

(** C9 at the failing input: two devices of the same model, /dev/A and
    /dev/B, are registered and both disappear.  The second detach event
    resolves the handle of /dev/A again, although it already has a pending
    disconnection, and a second entry with the path /dev/A is recorded;
    the handle of /dev/B gets none. *)
Lemma same_model_detaches_duplicate_pending_path :
  let s1 := (run false
               [Attached nanoS [dev_A] true;
                Attached nanoS [dev_A; dev_B] true;
                Detached nanoS []]
               (constructor legacy_5)).1 in
  let s2 := (handleDetachedDevice false nanoS [] s1).1 in
  knownPaths s1 = ["/dev/A"; "/dev/B"] ∧ pendingPaths s1 = ["/dev/A"] ∧
  getDetachedSigner nanoS [] s1 = Some 0 ∧
  pendingPaths s2 = ["/dev/A"; "/dev/A"] ∧
  timeouts s2 = [Some 0; Some 0] ∧
  ¬ NoDup (pendingPaths s2).
Proof.
  vm_compute. split_and!; [done..|].
  intros Hnd. apply NoDup_cons in Hnd as [Hnotin _].
  apply Hnotin, list_elem_of_here.
Qed.

(** ** A reused handle and the other timers *)

Lemma splice_indexOf_keeps (k : list ref) (r x : ref) :
  NoDup k → r ∈ k → x ∈ k → x ≠ r → x ∈ splice (indexOf r k) k.
Proof.
  intros Hnd Hr Hx Hne.
  apply list_elem_of_split in Hr as (k1 & k2 & ->).
  rewrite splice_indexOf_present.
  - apply elem_of_app in Hx as [Hx|Hx]; [apply elem_of_app; by left|].
    apply elem_of_cons in Hx as [Hx|Hx]; [done|]. apply elem_of_app. by right.
  - apply NoDup_app in Hnd as (_ & Hdisj & _).
    intros Hin. apply (Hdisj _ Hin), list_elem_of_here.
Qed.

(** A handle reused by an attach that took its pending disconnection
    stays registered whichever timer fires next, provided no other pending
    timer holds that handle and every other pending timer holds a handle
    that is still registered: the timer of the disconnection taken is
    cleared and does nothing, and any other timer removes its own
    handle. *)
Theorem reused_handle_survives_expiry
    (usbDevice : DeviceModel.t) (devices : list Hid.t) (openOk : bool)
    (s : State) (ds : list Disconnection.t) (pending : Disconnection.t)
    (ledger : ref) :
  wf s →
  Forall (λ d, Hid.path_or_empty d ∈ knownPaths s) devices →
  disconnections s = ds ++ [pending] →
  ledger ∈ knownSigners s →
  Ledger.devicePath (deref s ledger) = Disconnection.devicePath pending →
  (∀ t r, t ≠ Disconnection.timeout pending →
     timeouts s !! t = Some (Some r) → r ≠ ledger ∧ r ∈ knownSigners s) →
  let s' := (handleAttachedDevice usbDevice devices openOk s).1 in
  (handleAttachedDevice usbDevice devices openOk s).2 =
    [CallOpen ledger] ++ (if openOk then [CallConnect ledger] else []) ∧
  fireTimeout (Disconnection.timeout pending) s' = (s', []) ∧
  ∀ t, ledger ∈ knownSigners (fireTimeout t s').1.
Proof.
  intros Hwf Hdev Hd Hin Hp Hothers. cbv zeta.
  rewrite (handleAttachedDevice_claims _ _ _ _ ds pending ledger) by done.
  simpl. set (s1 := with_timeouts _ _).
  set (s' := updateDerivation ledger None None s1).
  assert (knownSigners s' = knownSigners s) as Hk by done.
  assert (timeouts s' = <[Disconnection.timeout pending := None]> (timeouts s)) as Ht by done.
  assert (∀ t, ledger ∈ knownSigners (fireTimeout t s').1) as Hall.
  { intros t. unfold fireTimeout. rewrite Ht.
    destruct (decide (t = Disconnection.timeout pending)) as [->|Hne].
    - destruct (decide (Disconnection.timeout pending < length (timeouts s))).
      + rewrite list_lookup_insert_eq by done. simpl. by rewrite ?Hk.
      + rewrite list_insert_ge by lia. rewrite lookup_ge_None_2 by lia.
        simpl. by rewrite ?Hk.
    - rewrite list_lookup_insert_ne by done.
      destruct (timeouts s !! t) as [[r|]|] eqn:E; simpl; [|by rewrite ?Hk..].
      destruct (Hothers t r Hne E) as [Hr Hrin].
      unfold disconnectionTimeout. simpl.
      apply splice_indexOf_keeps; [|done|done|done].
      eapply NoDup_fmap_1. apply Hwf. }
  split_and!; [done| |done].
  unfold fireTimeout. rewrite Ht.
  destruct (decide (Disconnection.timeout pending < length (timeouts s))).
  - by rewrite list_lookup_insert_eq.
  - rewrite list_insert_ge by lia. by rewrite lookup_ge_None_2 by lia.
Qed.

(** At an instance: /dev/B and then /dev/A disappear, /dev/A comes back
    and takes its pending disconnection; the timer of /dev/B then removes
    the handle of /dev/B and leaves the handle of /dev/A registered. *)
Lemma reused_handle_survives_expiry_witness :
  let s := (run false
              [Attached nanoS [dev_A] true;
               Attached nanoS [dev_A; dev_B] true;
               Detached nanoS [dev_A];
               Detached nanoS []]
              (constructor legacy_5)).1 in
  let s' := (handleAttachedDevice nanoS [dev_A] true s).1 in
  (pendingPaths s = ["/dev/B"; "/dev/A"] ∧ timeouts s = [Some 1; Some 0]) ∧
  (handleAttachedDevice nanoS [dev_A] true s).2 = [CallOpen 0] ++ [CallConnect 0] ∧
  fireTimeout 1 s' = (s', []) ∧
  (∀ t, 0 ∈ knownSigners (fireTimeout t s').1) ∧
  knownSigners (fireTimeout 0 s').1 = [0].
Proof.
  intros s s'.
  assert (timeouts s = [Some 1; Some 0]) as Hts by reflexivity.
  split; [split; reflexivity|].
  destruct (reused_handle_survives_expiry nanoS [dev_A] true s
              [Disconnection.Make "/dev/B" 0] (Disconnection.Make "/dev/A" 1) 0)
    as (Hacts & Hnoop & Hall).
  - apply run_wf, constructor_wf.
  - by_evaluation.
  - reflexivity.
  - by_evaluation.
  - reflexivity.
  - intros t r Hne Ht. rewrite Hts in Ht. simpl in Hne.
    destruct t as [|[|t]]; simpl in Ht; [|done|done].
    injection Ht as <-. split; [done|by_evaluation].
  - split_and!; [exact Hacts|exact Hnoop|exact Hall|reflexivity].
Defined.
